(** * Mark V Shaney: a Markov-chain text generator (mark.go)

    A shallow embedding of the frequency-table builder, the table file
    codec, the chain expander and the generator, with the properties of
    the design document stated and proved over it.

    Go values are modelled as follows.
    - [string] is a byte string (Rocq's [string], one [ascii] per byte).
    - [int] is a 64-bit signed integer, modelled as [Z] with [wrapInt]
      written where the code does arithmetic on it.
    - [map[string]T] is [gmap string T]; the order in which [range]
      visits a map is not fixed by Go, so it is a parameter
      ([rangeMap]) constrained only to enumerate the map.
    - A run-time panic ends the program: functions that can panic
      return a [result].
    - A file is modelled by its content; the panics of mark.go when a
      file cannot be opened or created are outside the model.
    - [bufio.Scanner] is modelled as the list of tokens its split
      function produces on the whole input (its buffer limit is not
      modelled). *)

From Stdlib Require Import ZArith Ascii Lia.
From stdpp Require Import base tactics option list sorting gmap strings.

Local Open Scope Z_scope.

(** ** Panics *)

Inductive panic : Type :=
| PanicMsg (msg : string)          (* panic("...") in mark.go *)
| IndexOutOfRange                  (* runtime error: index out of range *)
| SliceBoundsOutOfRange            (* runtime error: slice bounds out of range *)
| MakesliceLenOutOfRange.          (* runtime error: makeslice: len out of range *)

Inductive result (A : Type) : Type :=
| Ok (a : A)
| Panicked (p : panic).
Arguments Ok {A} a.
Arguments Panicked {A} p.

Global Instance result_bind : MBind result := λ A B k r,
  match r with
  | Ok a => k a
  | Panicked p => Panicked p
  end.

Definition panics {A} (r : result A) : Prop := ∃ p, r = Panicked p.

(** ** The [int] type *)

Definition intMin : Z := - 2 ^ 63.
Definition intMax : Z := 2 ^ 63 - 1.
Definition isInt (z : Z) : Prop := intMin ≤ z ≤ intMax.
Definition wrapInt (z : Z) : Z := (z + 2 ^ 63) mod 2 ^ 64 - 2 ^ 63.

(** ** package strings *)

(** [strings.Join(elems, sep)]. *)
Fixpoint Join (elems : list string) (sep : string) : string :=
  match elems with
  | [] => ""
  | e :: rest =>
      match rest with
      | [] => e
      | _ :: _ => e +:+ sep +:+ Join rest sep
      end
  end.

(** [strings.Split(s, sep)] for a one-byte separator, which is the only
    way mark.go calls it ([sep = " "]).  The empty string splits into
    one empty field. *)
Fixpoint Split (s : string) (sep : ascii) : list string :=
  match s with
  | "" => [""]
  | String a s' =>
      if decide (a = sep) then "" :: Split s' sep
      else match Split s' sep with
           | [] => [String a ""]
           | w :: ws => String a w :: ws
           end
  end.

(** ** package strconv *)

Definition digitChar (d : Z) : ascii := ascii_of_N (Z.to_N (48 + d)).

Definition digitVal (ch : ascii) : option Z :=
  let n := Z.of_N (N_of_ascii ch) in
  if (48 <=? n) && (n <=? 57) then Some (n - 48) else None.

(** The digit loop of [strconv.formatBits] in base 10: digits are
    produced from the least significant one into a buffer that holds
    any 64-bit value (at most 20 digits). *)
Fixpoint formatBits (room : nat) (u : Z) (acc : string) : string :=
  match room with
  | O => acc
  | S room' =>
      let acc' := String (digitChar (u mod 10)) acc in
      if u <? 10 then acc' else formatBits room' (u / 10) acc'
  end.

Definition FormatInt (i : Z) : string :=
  if i <? 0 then String "-" (formatBits 20 (- i) "") else formatBits 20 i "".

(** [strconv.Itoa]. *)
Definition Itoa (i : Z) : string := FormatInt i.

Fixpoint parseDigits (s : string) (n : Z) : option Z :=
  match s with
  | "" => Some n
  | String ch s' =>
      match digitVal ch with
      | Some d => parseDigits s' (n * 10 + d)
      | None => None
      end
  end.

(** [strconv.Atoi]: an optional sign, then one or more decimal digits;
    [None] stands for a non-nil error (syntax error, or value out of the
    range of [int]). *)
Definition Atoi (s : string) : option Z :=
  let '(neg, body) :=
    match s with
    | String ch s' =>
        if decide (ch = "-"%char) then (true, s')
        else if decide (ch = "+"%char) then (false, s')
        else (false, s)
    | "" => (false, s)
    end in
  match body with
  | "" => None
  | String _ _ =>
      match parseDigits body 0 with
      | Some n =>
          let v := if neg then - n else n in
          if (intMin <=? v) && (v <=? intMax) then Some v else None
      | None => None
      end
  end.

(** *** Bytes of a string *)

Definition bytes (s : string) : list ascii := String.list_ascii_of_string s.

Definition isDigit (ch : ascii) : Prop := is_Some (digitVal ch).

(** ** package bufio: the two split functions *)

Definition LF : ascii := ascii_of_N 10.
Definition CR : ascii := ascii_of_N 13.
Definition SP : ascii := ascii_of_N 32.

(** [bufio.isSpace] read off the UTF-8 encoding: the width in bytes of
    the white-space rune that starts [data], or 0 when [data] does not
    start with one.  The runes are the six ASCII ones, U+0085, U+00A0,
    U+1680, U+2000 to U+200A, U+2028, U+2029, U+202F, U+205F, U+3000. *)
Definition spaceWidth (data : string) : nat :=
  match data with
  | "" => 0%nat
  | String b0 rest =>
      if Ascii.is_space b0 then 1%nat
      else
        match N_of_ascii <$> b0 :: take 2 (bytes rest) with
        | [194; b1]%N | [194; b1; _]%N =>
            if (b1 =? 133)%N || (b1 =? 160)%N then 2%nat else 0%nat
        | [225; 154; 128]%N => 3%nat
        | [226; 128; b2]%N =>
            if ((128 <=? b2) && (b2 <=? 138))%N || (b2 =? 168)%N
               || (b2 =? 169)%N || (b2 =? 175)%N
            then 3%nat else 0%nat
        | [226; 129; 159]%N => 3%nat
        | [227; 128; 128]%N => 3%nat
        | _ => 0%nat
        end
  end.

Definition flush (cur : string) : list string :=
  if decide (cur = "") then [] else [cur].

(** [bufio.ScanWords] applied until the input is used up: [cur] is the
    word being read, [skip] the bytes left of a white-space rune. *)
Fixpoint scanWords (skip : nat) (cur : string) (data : string) : list string :=
  match data with
  | "" => flush cur
  | String b rest =>
      match skip with
      | S k => scanWords k cur rest
      | O =>
          match spaceWidth data with
          | O => scanWords 0 (cur +:+ String b "") rest
          | S k => flush cur ++ scanWords k "" rest
          end
      end
  end.

Definition ScanWords (data : string) : list string := scanWords 0 "" data.

(** [bufio.dropCR]. *)
Fixpoint dropCR (line : string) : string :=
  match line with
  | "" => ""
  | String a rest =>
      match rest with
      | "" => if decide (a = CR) then "" else line
      | String _ _ => String a (dropCR rest)
      end
  end.

(** [bufio.ScanLines] applied until the input is used up: a line ends at
    a newline; a last line without newline counts when it is not empty. *)
Fixpoint scanLines (cur : string) (data : string) : list string :=
  match data with
  | "" => if decide (cur = "") then [] else [dropCR cur]
  | String b rest =>
      if decide (b = LF) then dropCR cur :: scanLines "" rest
      else scanLines (cur +:+ String b "") rest
  end.

Definition ScanLines (data : string) : list string := scanLines "" data.

(** [fmt.Fprintln(w, s)] appends [s] and a newline to the output. *)
Definition Fprintln (w : string) (s : string) : string := w +:+ s +:+ String LF "".

(** ** Prefix *)

(** [type Prefix []string]. *)
Abbreviation Prefix := (list string).

(** [func (p Prefix) String() string]. *)
Definition Prefix_String (p : Prefix) : string := Join p " ".

(** [func (p Prefix) Shift(word string)]: [copy(p, p[1:])] moves every
    word one place down, then the last place takes [word].  On an empty
    prefix the slice expression [p[1:]] is out of bounds. *)
Definition Prefix_Shift (p : Prefix) (word : string) : result Prefix :=
  match p with
  | [] => Panicked SliceBoundsOutOfRange
  | _ :: rest => Ok (rest ++ [word])
  end.

(** ** Chain *)

Record Chain : Type := mkChain {
  chain : gmap string (list string);
  prefixLen : Z;
  freqTable : gmap string (gmap string Z)
}.

Definition NewChain (prefixLen : Z) : Chain := mkChain ∅ prefixLen ∅.

(** The word that fills the start prefix: two double-quote bytes. *)
Definition quoteByte : ascii := ascii_of_N 34.
Definition startWord : string := String quoteByte (String quoteByte "").

(** [startPrefix := make([]string, c.prefixLen)] followed by the loop
    that fills it. *)
Definition startPrefix (c : Chain) : result Prefix :=
  if prefixLen c <? 0 then Panicked MakesliceLenOutOfRange
  else Ok (replicate (Z.to_nat (prefixLen c)) startWord).

(** The body of the reading loop, the same statements in [Build] and in
    [FileToFreqTable]: count [s] after the current prefix, append it to
    the chain, shift the prefix. *)
Definition countWord (cp : Chain * Prefix) (s : string) : result (Chain * Prefix) :=
  let '(c, p) := cp in
  let key := Prefix_String p in
  let ft :=
    match freqTable c !! key with
    | Some val => <[key := <[s := wrapInt (default 0 (val !! s) + 1)]> val]> (freqTable c)
    | None => <[key := {[s := 1]}]> (freqTable c)
    end in
  let ch := <[key := default [] (chain c !! key) ++ [s]]> (chain c) in
  p' ← Prefix_Shift p s;
  Ok (mkChain ch (prefixLen c) ft, p').

Fixpoint countWords (cp : Chain * Prefix) (words : list string) : result (Chain * Prefix) :=
  match words with
  | [] => Ok cp
  | s :: rest => cp' ← countWord cp s; countWords cp' rest
  end.

(** [func (c *Chain) Build(r io.Reader)]; [words] are the words that
    [fmt.Fscan] reads from [r] until it fails. *)
Definition Build (c : Chain) (words : list string) : result Chain :=
  p ← startPrefix c;
  cp ← countWords (c, p) words;
  Ok cp.1.

(** [func (c *Chain) FileToFreqTable(filename string)]; [data] is the
    content of the file. *)
Definition FileToFreqTable (c : Chain) (data : string) : result Chain :=
  p ← startPrefix c;
  cp ← countWords (c, p) (ScanWords data);
  Ok cp.1.

(** ** Iteration over maps *)

(** [for k, v := range m] visits every entry of [m] once, in an order
    that Go leaves open. *)
Class MapRange : Type := {
  rangeMap : ∀ {A : Type}, gmap string A → list (string * A);
  rangeMap_perm : ∀ (A : Type) (m : gmap string A), rangeMap m ≡ₚ map_to_list m
}.

(** One possible order. *)
Definition canonicalRange : MapRange :=
  {| rangeMap := λ A m, map_to_list m;
     rangeMap_perm := λ A m, reflexivity (map_to_list m) |}.

(** Another possible order: the first one backwards. *)
Definition reversedRange : MapRange :=
  {| rangeMap := λ A m, reverse (map_to_list m);
     rangeMap_perm := λ A m, reverse_Permutation (map_to_list m) |}.

(** [sort.Strings]: ascending in the byte order of Go strings.  The keys
    of a map are pairwise different, so the sorted list is determined by
    the order alone. *)
Definition sortStrings (keys : list string) : list string :=
  merge_sort String.le keys.

Section codec.
Context `{MapRange}.

(** The inner loop of [FreqTableToFile] and [PrintFreqTable]:
    [sufCount = append(sufCount, k2, strconv.Itoa(v2))]. *)
Definition sufCount (v : gmap string Z) : list string :=
  '(k2, v2) ← rangeMap v; [k2; Itoa v2].

(** The keys of the frequency table, collected and sorted. *)
Definition sortedKeys (c : Chain) : list string :=
  sortStrings ((rangeMap (freqTable c)).*1).

(** The text of one data line. *)
Definition tableLine (c : Chain) (key : string) : string :=
  key +:+ " " +:+ Join (sufCount (default ∅ (freqTable c !! key))) " ".

(** The lines that [FreqTableToFile] prints, one per [Fprintln]. *)
Definition FreqTableToFile_lines (c : Chain) : list string :=
  Itoa (prefixLen c) :: (tableLine c <$> sortedKeys c).

(** [func (c *Chain) FreqTableToFile(filepath string)]: the content of
    the file once the writer is flushed. *)
Definition FreqTableToFile (c : Chain) : string :=
  foldl Fprintln "" (FreqTableToFile_lines c).

(** The inner loops of [ChainFromFreqTable]: every suffix as often as
    its count says. *)
Definition expandSuffixes (v : gmap string Z) : list string :=
  '(k2, v2) ← rangeMap v; replicate (Z.to_nat v2) k2.

(** [func (c *Chain) ChainFromFreqTable()]. *)
Definition ChainFromFreqTable (c : Chain) : Chain :=
  mkChain
    (foldl (λ ch kv, <[kv.1 := expandSuffixes kv.2]> ch) (chain c)
           (rangeMap (freqTable c)))
    (prefixLen c) (freqTable c).
End codec.

(** ** Decoding a table file *)

Definition convPanic : panic := PanicMsg "Could not convert string to integer".

(** The loop [for i := c.prefixLen; i < len(items); i = i + 2] started at
    a position inside [items]: [rest] is [items[i:]] and [val] the map
    under construction.  A lone last field makes [items[i+1]] go out of
    range. *)
Fixpoint readPairs (rest : list string) (val : gmap string Z) : result (gmap string Z) :=
  match rest with
  | [] => Ok val
  | [_] => Panicked IndexOutOfRange
  | sfx :: cnt :: rest' =>
      match Atoi cnt with
      | None => Panicked convPanic
      | Some sfxFreq => readPairs rest' (<[sfx := sfxFreq]> val)
      end
  end.

(** The branch [len(items) > 1] of the decoding loop. *)
Definition readDataLine (c : Chain) (items : list string) : result Chain :=
  let n := prefixLen c in
  (* for i := 0; i < c.prefixLen; i++ { p = append(p, items[i]) } *)
  if Z.of_nat (length items) <? n then Panicked IndexOutOfRange
  else
    let p : Prefix := take (Z.to_nat n) items in
    let key := Prefix_String p in
    if n <? 0 then
      (* the pair loop starts at a negative i: items[i+1] or items[i] is
         out of range, unless strconv.Atoi fails first on items[0] *)
      if n =? -1 then
        match Atoi (default "" (head items)) with
        | None => Panicked convPanic
        | Some _ => Panicked IndexOutOfRange
        end
      else Panicked IndexOutOfRange
    else
      val ← readPairs (drop (Z.to_nat n) items) ∅;
      Ok (mkChain (chain c) n (<[key := val]> (freqTable c))).

(** The body of the loop over the lines of the file. *)
Definition readLine (c : Chain) (line : string) : result Chain :=
  let items := Split line SP in
  if (1 <? length items)%nat then readDataLine c items
  else
    match items with
    | [item] =>
        if (0 <? String.length item)%nat then
          match Atoi item with
          | None => Panicked convPanic
          | Some n => Ok (mkChain (chain c) n (freqTable c))
          end
        else Ok c
    | _ => Ok c
    end.

Fixpoint readLines (c : Chain) (lines : list string) : result Chain :=
  match lines with
  | [] => Ok c
  | line :: rest => c' ← readLine c line; readLines c' rest
  end.

(** [func FreqTableFromFreqFile(freqFile string) Chain]; [data] is the
    content of the file. *)
Definition FreqTableFromFreqFile (data : string) : result Chain :=
  readLines (NewChain 0) (ScanLines data).

(** ** Generation *)

Section generate.
(** The random source: [src i n] is what the [i]-th call draws when it
    is asked for a number below [n]; [rand.Intn(n)] is in [0, n). *)
Variable src : nat → nat → nat.

Definition Intn (i : nat) (n : nat) : nat := (src i n mod n)%nat.

(** The loop of [Generate] from iteration [i] on, with [todo]
    iterations to go. *)
Fixpoint generateLoop (c : Chain) (todo : nat) (i : nat) (p : Prefix)
    (words : list string) : result (list string) :=
  match todo with
  | O => Ok words
  | S todo' =>
      let choices := default [] (chain c !! Prefix_String p) in
      if (length choices =? 0)%nat then Ok words
      else
        match choices !! Intn i (length choices) with
        | None => Panicked IndexOutOfRange
        | Some next =>
            p' ← Prefix_Shift p next;
            generateLoop c todo' (S i) p' (words ++ [next])
        end
  end.

Definition GenerateWords (c : Chain) (n : Z) : result (list string) :=
  p ← startPrefix c;
  generateLoop c (Z.to_nat n) 0 p [].

(** [func (c *Chain) Generate(n int) string]. *)
Definition Generate (c : Chain) (n : Z) : result string :=
  words ← GenerateWords c n;
  Ok (Join words " ").
End generate.

(** ** Vocabulary of the properties *)

(** A word as white-space tokenization yields it: not empty, and free of
    the ASCII white-space bytes. *)
Definition noSpace (t : string) : Prop :=
  Forall (λ b, Ascii.is_space b = false) (bytes t).
Definition isToken (t : string) : Prop := t ≠ "" ∧ noSpace t.

(** The text made of the given lines, each closed by a newline. *)
Definition unlines (lines : list string) : string :=
  foldr (λ l acc, l +:+ String LF acc) "" lines.

(** How often [s] occurs in [l]. *)
Definition occurrences (s : string) (l : list string) : nat :=
  length (filter (λ x, x = s) l).

(** The sum of the counts recorded for one prefix, and for all of them. *)
Definition sumZ (l : list Z) : Z := foldr Z.add 0 l.
Definition sumOver {A} (f : A → Z) (m : gmap string A) : Z :=
  sumZ (f <$> (map_to_list m).*2).
Definition mapSum (val : gmap string Z) : Z := sumOver id val.
Definition tableTotal (ft : gmap string (gmap string Z)) : Z := sumOver mapSum ft.

(** The counts of a table that has taken [n] words: they add up to [n],
    and each is between 1 and [n]. *)
Definition counted (n : Z) (ft : gmap string (gmap string Z)) : Prop :=
  tableTotal ft = n ∧
  ∀ key val s v, ft !! key = Some val → val !! s = Some v → 1 ≤ v ≤ n.

(** The window the generator holds after it has emitted [words]. *)
Definition windowAfter (c : Chain) (words : list string) : Prefix :=
  drop (length words) (replicate (Z.to_nat (prefixLen c)) startWord ++ words).

(** Strict byte order on strings. *)
Definition strLt (s1 s2 : string) : Prop := String.ltb s1 s2 = true.

(** The chains that the build operations make from token streams,
    starting from [NewChain k]: files read by [FileToFreqTable], readers
    consumed by [Build]. *)
Inductive builtFrom (k : Z) : Chain → Prop :=
| built_new : builtFrom k (NewChain k)
| built_file c data c' :
    builtFrom k c → FileToFreqTable c data = Ok c' → builtFrom k c'
| built_reader c words c' :
    builtFrom k c → Forall isToken words → Build c words = Ok c' →
    builtFrom k c'.

(** What a built table looks like: every key is [k] tokens joined by
    single spaces, every prefix has a suffix, every suffix is a token and
    every count an int. *)
Definition wfTable (k : Z) (ft : gmap string (gmap string Z)) : Prop :=
  ∀ key val, ft !! key = Some val →
    (∃ toks : list string,
        key = Join toks " " ∧ length toks = Z.to_nat k ∧ Forall isToken toks) ∧
    val ≠ ∅ ∧
    (∀ s v, val !! s = Some v → isToken s ∧ isInt v).

(** ** The rest of mark.go: printing, files and the command line *)

Section printing.
Context `{MapRange}.


End printing.

(** The files the program sees: the content of those that [os.Open]
    opens, and the paths at which [os.Create] fails. *)
Record Disk : Type := mkDisk {
  content : gmap string string;
  denied : gset string
}.

(** [FileToFreqTable] from its first line on: [os.Open] and the panic
    when it fails. *)
Definition FileToFreqTable_file (d : Disk) (c : Chain) (filename : string)
    : result Chain :=
  match content d !! filename with
  | None => Panicked (PanicMsg "Could not open input file.")
  | Some data => FileToFreqTable c data
  end.

(** [FreqTableFromFreqFile] from its first line on. *)
Definition FreqTableFromFreqFile_file (d : Disk) (freqFile : string)
    : result Chain :=
  match content d !! freqFile with
  | None => Panicked (PanicMsg "Could not open frequency table file.")
  | Some data => FreqTableFromFreqFile data
  end.

(** The loop of [main] over the input files:
    [for i := 4; i < len(os.Args); i++ { c.FileToFreqTable(os.Args[i]) }]. *)
Fixpoint readFiles (d : Disk) (c : Chain) (filenames : list string)
    : result Chain :=
  match filenames with
  | [] => Ok c
  | filename :: rest =>
      c' ← FileToFreqTable_file d c filename; readFiles d c' rest
  end.

Section program.
Context `{MapRange}.
Variable src : nat → nat → nat.

(** [FreqTableToFile] from its first line on: [os.Create] and the panic
    when it fails; the file then holds what the writer was given. *)
Definition FreqTableToFile_file (d : Disk) (c : Chain) (filepath : string)
    : result Disk :=
  if decide (filepath ∈ denied d)
  then Panicked (PanicMsg "Could not create file from given file path")
  else Ok (mkDisk (<[filepath := FreqTableToFile c]> (content d)) (denied d)).

(** [func main()]: [Args] is [os.Args]; the result is what was written
    to standard output and the files afterwards. *)
Definition main (Args : list string) (d : Disk) : result (string * Disk) :=
  if (length Args <? 4)%nat
  then Panicked (PanicMsg "Command does not have enough arguments")
  else
    let arg := λ i : nat, default "" (Args !! i) in
    let runType := arg 1%nat in
    if decide (runType = "generate") then
      let freqFile := arg 2%nat in
      match Atoi (arg 3%nat) with
      | None => Panicked (PanicMsg "Could not convert integer to string")
      | Some n =>
          if n <? 0 then Panicked (PanicMsg "Number of words must be positive")
          else
            c ← FreqTableFromFreqFile_file d freqFile;
            text ← Generate src (ChainFromFreqTable c) n;
            Ok (Fprintln "" text, d)
      end
    else if decide (runType = "read") then
      match Atoi (arg 2%nat) with
      | None => Panicked (PanicMsg "Could not convert integer to string")
      | Some prefixLen =>
          if prefixLen <? 1
          then Panicked (PanicMsg "Prefix length must be greater than 0")
          else
            let outputFile := arg 3%nat in
            c ← readFiles d (NewChain prefixLen) (drop 4 Args);
            d' ← FreqTableToFile_file d c outputFile;
            Ok ("", d')
      end
    else Panicked (PanicMsg "Invalid word in program command").
End program.

(** ** More vocabulary *)

(** The count recorded for suffix [s] after prefix key [key], 0 when
    there is none (what Go's [c.freqTable[key][s]] reads). *)
Definition countOf (ft : gmap string (gmap string Z)) (key s : string) : Z :=
  default 0 (val ← ft !! key; val !! s).

(** The window in force when the word at position [i] of [words] is
    read, for a reading loop that started with the prefix [p]. *)
Definition windowAt (p : Prefix) (words : list string) (i : nat) : Prefix :=
  take (length p) (drop i (p ++ words)).

(** The positions of [words] at which [s] is read under the key [key]. *)
Definition positionsOf (p : Prefix) (words : list string) (key s : string)
    : list nat :=
  filter (λ i, Prefix_String (windowAt p words i) = key ∧ words !! i = Some s)
         (seq 0 (length words)).

(** The chain lists and the counts of the table tell the same story. *)
Definition chainMatchesTable (c : Chain) : Prop :=
  ∀ key s,
    Z.of_nat (occurrences s (default [] (chain c !! key)))
      = countOf (freqTable c) key s.

(** The words of the input files of one run, and their number. *)
Definition wordsOfFile (d : Disk) (filename : string) : list string :=
  ScanWords (default "" (content d !! filename)).
Definition wordCount (d : Disk) (filenames : list string) : Z :=
  sumZ ((λ f, Z.of_nat (length (wordsOfFile d f))) <$> filenames).

(** The first window of a chain of prefix length [k]. *)
Definition startWindow (k : Z) : Prefix := replicate (Z.to_nat k) startWord.

(** * Properties *)

(** ** The example of the program's manual *)

Example manual_table :
  ∃ c, FileToFreqTable (NewChain 2) "I am not a number! I am a free man!" = Ok c ∧
       freqTable c !! "I am" = Some {[ "a" := 1; "not" := 1 ]} ∧
       freqTable c !! "am a" = Some {[ "free" := 1 ]} ∧
       freqTable c !! Join [startWord; "I"] " " = Some {[ "am" := 1 ]}.
Proof. eexists. split; [vm_compute; reflexivity|]. repeat split. Qed.

Example manual_generation :
  (c ← FileToFreqTable (NewChain 2) "I am not a number! I am a free man!";
   c' ← FreqTableFromFreqFile (@FreqTableToFile canonicalRange c);
   Generate (λ _ _, 0%nat) (@ChainFromFreqTable canonicalRange c') 2)
  = Ok "I am".
Proof. reflexivity. Qed.

(** ** Strings *)

Lemma app_String a s1 s2 : String a s1 +:+ s2 = String a (s1 +:+ s2).
Proof. reflexivity. Qed.

Lemma app_empty_l s : "" +:+ s = s.
Proof. reflexivity. Qed.

Lemma app_empty_r s : s +:+ "" = s.
Proof. induction s as [|a s IH]; [done|]. by rewrite app_String, IH. Qed.

Lemma string_app_assoc s1 s2 s3 : (s1 +:+ s2) +:+ s3 = s1 +:+ s2 +:+ s3.
Proof. induction s1 as [|a s1 IH]; [done|]. by rewrite !app_String, IH. Qed.

Lemma bytes_app s1 s2 : bytes (s1 +:+ s2) = bytes s1 ++ bytes s2.
Proof.
  induction s1 as [|a s1 IH]; [done|].
  change (a :: bytes (s1 +:+ s2) = a :: bytes s1 ++ bytes s2). by rewrite IH.
Qed.

(** *** Decimal round trip *)

Lemma digitVal_digitChar d : 0 ≤ d < 10 → digitVal (digitChar d) = Some d.
Proof.
  intros Hd.
  assert (d = 0 ∨ d = 1 ∨ d = 2 ∨ d = 3 ∨ d = 4 ∨ d = 5 ∨ d = 6 ∨ d = 7
          ∨ d = 8 ∨ d = 9) as Hcases by lia.
  repeat destruct Hcases as [-> | Hcases]; try reflexivity.
  subst d. reflexivity.
Qed.

Lemma formatBits_shape room : ∀ u acc,
  0 ≤ u →
  ∃ ds, formatBits (S room) u acc = ds +:+ acc ∧ ds ≠ "" ∧
        Forall isDigit (bytes ds).
Proof.
  induction room as [|room IH]; intros u acc Hu.
  - exists (String (digitChar (u mod 10)) ""). split.
    + cbn [formatBits]. by destruct (u <? 10).
    + split; [done|]. repeat constructor.
      red. rewrite digitVal_digitChar; [done|]. apply Z.mod_pos_bound. lia.
  - remember (S room) as r. cbn [formatBits]. cbv zeta. subst r.
    destruct (u <? 10).
    + exists (String (digitChar (u mod 10)) ""). split; [done|].
      split; [done|]. repeat constructor.
      red. rewrite digitVal_digitChar; [done|]. apply Z.mod_pos_bound. lia.
    + destruct (IH (u / 10) (String (digitChar (u mod 10)) acc))
        as (ds & Heq & Hne & Hds); [apply Z.div_pos; lia|].
      rewrite Heq. clear Heq.
      exists (ds +:+ String (digitChar (u mod 10)) ""). split.
      { by rewrite string_app_assoc. }
      split; [by destruct ds|].
      rewrite bytes_app. apply Forall_app. split; [done|].
      repeat constructor.
      red. rewrite digitVal_digitChar; [done|]. apply Z.mod_pos_bound. lia.
Qed.

Lemma parseDigits_formatBits room : ∀ u acc n,
  0 ≤ u < 10 ^ Z.of_nat (S room) →
  ∃ k, 0 < k ∧
    parseDigits (formatBits (S room) u acc) n = parseDigits acc (n * 10 ^ k + u).
Proof.
  induction room as [|room IH]; intros u acc n Hu.
  - exists 1. split; [lia|]. change (10 ^ Z.of_nat 1) with 10 in Hu.
    cbn [formatBits]. replace (if u <? 10 then _ else _)
      with (String (digitChar (u mod 10)) acc) by (by destruct (u <? 10)).
    cbn [parseDigits]. rewrite Z.mod_small by lia.
    rewrite digitVal_digitChar by lia. f_equal; lia.
  - remember (S room) as r. cbn [formatBits]. cbv zeta. subst r.
    destruct (u <? 10) eqn:Hlt.
    + apply Z.ltb_lt in Hlt. exists 1. split; [lia|].
      cbn [parseDigits]. rewrite Z.mod_small by lia.
      rewrite digitVal_digitChar by lia. f_equal; lia.
    + apply Z.ltb_ge in Hlt.
      destruct (IH (u / 10) (String (digitChar (u mod 10)) acc) n) as (k & Hk & ->).
      { split; [apply Z.div_pos; lia|].
        apply Z.div_lt_upper_bound; [lia|].
        rewrite (Nat2Z.inj_succ (S room)), Z.pow_succ_r in Hu by lia. lia. }
      exists (k + 1). split; [lia|].
      cbn [parseDigits].
      rewrite digitVal_digitChar by (apply Z.mod_pos_bound; lia).
      f_equal; rewrite Z.pow_add_r by lia.
      pose proof (Z.div_mod u 10). lia.
Qed.

Lemma Atoi_digits s n :
  s ≠ "" → Forall isDigit (bytes s) → parseDigits s 0 = Some n → isInt n →
  Atoi s = Some n.
Proof.
  intros Hne Hds Hp Hn. destruct s as [|ch s]; [done|].
  unfold Atoi.
  apply Forall_cons in Hds as [Hch _].
  destruct (decide (ch = "-"%char)) as [->|_]; [by destruct Hch|].
  destruct (decide (ch = "+"%char)) as [->|_]; [by destruct Hch|].
  rewrite Hp. destruct Hn as [Hlo Hhi].
  apply Z.leb_le in Hlo, Hhi. by rewrite Hlo, Hhi.
Qed.

Lemma Atoi_Itoa n : isInt n → Atoi (Itoa n) = Some n.
Proof.
  intros Hn. unfold Itoa, FormatInt. destruct (n <? 0) eqn:Hneg.
  - apply Z.ltb_lt in Hneg. unfold Atoi.
    destruct (decide ("-"%char = "-"%char)) as [_|?]; [|done].
    destruct (formatBits_shape 19 (- n) "") as (ds & Hds & Hne & _); [lia|].
    destruct (formatBits 20 (- n) "") as [|c r] eqn:Hfb.
    { destruct ds; [done|discriminate]. }
    rewrite <- Hfb.
    destruct (parseDigits_formatBits 19 (- n) "" 0) as (k & _ & ->).
    { unfold isInt, intMin, intMax in Hn. lia. }
    cbn [parseDigits]. replace (- (0 * 10 ^ k + - n)) with n by lia.
    destruct Hn as [Hlo Hhi]. apply Z.leb_le in Hlo, Hhi. by rewrite Hlo, Hhi.
  - apply Z.ltb_ge in Hneg.
    destruct (formatBits_shape 19 n "") as (ds & Hds & Hne & Hdig); [lia|].
    rewrite app_empty_r in Hds.
    apply Atoi_digits; rewrite ?Hds; try done.
    rewrite <- Hds.
    destruct (parseDigits_formatBits 19 n "" 0) as (k & _ & ->).
    { unfold isInt, intMin, intMax in Hn. lia. }
    cbn [parseDigits]. f_equal; lia.
Qed.


Lemma bytes_String a s : bytes (String a s) = a :: bytes s.
Proof. reflexivity. Qed.

Lemma Split_no_sep sep s : sep ∉ bytes s → Split s sep = [s].
Proof.
  induction s as [|a s IH]; [done|]. rewrite bytes_String, not_elem_of_cons.
  intros [Ha Hs]. cbn [Split]. rewrite decide_False by done. by rewrite IH.
Qed.

Lemma Split_app sep s1 s2 :
  sep ∉ bytes s1 → Split (s1 +:+ String sep s2) sep = s1 :: Split s2 sep.
Proof.
  induction s1 as [|a s1 IH].
  - intros _. rewrite app_empty_l. cbn [Split]. by rewrite decide_True.
  - rewrite bytes_String, not_elem_of_cons. intros [Ha Hs].
    rewrite app_String. cbn [Split]. rewrite decide_False by done.
    by rewrite IH.
Qed.

Lemma Split_Join sep l :
  l ≠ [] → Forall (λ t, sep ∉ bytes t) l → Split (Join l (String sep "")) sep = l.
Proof.
  induction l as [|e [|e' rest] IH]; [done| |]; intros _ Hl.
  - apply Forall_cons in Hl as [He _]. by apply Split_no_sep.
  - apply Forall_cons in Hl as [He Hl].
    change (Join (e :: e' :: rest) (String sep ""))
      with (e +:+ String sep "" +:+ Join (e' :: rest) (String sep "")).
    rewrite app_String, app_empty_l, Split_app by done. by rewrite IH.
Qed.

(** ** Scanners *)

Lemma dropCR_id s : CR ∉ bytes s → dropCR s = s.
Proof.
  induction s as [|a [|a' s] IH]; [done| |].
  - rewrite bytes_String, not_elem_of_cons. intros [Ha _].
    cbn [dropCR]. by rewrite decide_False.
  - rewrite bytes_String, not_elem_of_cons. intros [Ha Hs].
    cbn [dropCR]. cbn [dropCR] in IH. by rewrite IH.
Qed.

Lemma scanLines_line l : ∀ cur rest,
  LF ∉ bytes l →
  scanLines cur (l +:+ String LF rest) = dropCR (cur +:+ l) :: scanLines "" rest.
Proof.
  induction l as [|a l IH]; intros cur rest.
  - intros _. rewrite app_empty_l, app_empty_r. cbn [scanLines].
    by rewrite decide_True.
  - rewrite bytes_String, not_elem_of_cons. intros [Ha Hl].
    rewrite app_String. cbn [scanLines]. rewrite decide_False by done.
    rewrite IH by done. by rewrite string_app_assoc.
Qed.

Lemma ScanLines_unlines lines :
  Forall (λ l, (LF ∉ bytes l) ∧ (CR ∉ bytes l)) lines →
  ScanLines (unlines lines) = lines.
Proof.
  unfold ScanLines. induction lines as [|l lines IH]; [done|].
  intros [[Hlf Hcr] Hlines]%Forall_cons. cbn [unlines foldr].
  rewrite scanLines_line, app_empty_l, dropCR_id by done.
  f_equal. by apply IH.
Qed.

Lemma foldl_Fprintln lines w :
  foldl Fprintln w lines = w +:+ unlines lines.
Proof.
  revert w. induction lines as [|l lines IH]; intros w.
  - by rewrite app_empty_r.
  - cbn [foldl unlines foldr]. rewrite IH. unfold Fprintln.
    by rewrite !string_app_assoc, app_String, app_empty_l.
Qed.

Lemma spaceWidth_0 b rest :
  spaceWidth (String b rest) = 0%nat → Ascii.is_space b = false.
Proof. cbn [spaceWidth]. by destruct (Ascii.is_space b). Qed.

Lemma flush_tokens cur : noSpace cur → Forall isToken (flush cur).
Proof.
  intros Hcur. unfold flush. destruct (decide (cur = "")); [constructor|].
  by repeat constructor.
Qed.

Lemma scanWords_tokens data : ∀ skip cur,
  noSpace cur → Forall isToken (scanWords skip cur data).
Proof.
  induction data as [|b rest IH]; intros skip cur Hcur.
  - by apply flush_tokens.
  - cbn [scanWords]. destruct skip as [|k]; [|by apply IH].
    destruct (spaceWidth (String b rest)) as [|k] eqn:Hw.
    + apply IH. unfold noSpace. rewrite bytes_app. apply Forall_app.
      split; [done|].
      repeat constructor. by eapply spaceWidth_0.
    + apply Forall_app. split; [by apply flush_tokens|]. apply IH. constructor.
Qed.

Lemma ScanWords_tokens data : Forall isToken (ScanWords data).
Proof. apply scanWords_tokens. constructor. Qed.

Lemma scanWords_bytes data : ∀ skip cur tok b,
  tok ∈ scanWords skip cur data → b ∈ bytes tok →
  b ∈ bytes cur ∨ b ∈ bytes data.
Proof.
  assert (∀ cur tok, tok ∈ flush cur → tok = cur) as Hflush.
  { intros cur tok. unfold flush. destruct (decide (cur = "")).
    - by intros ?%elem_of_nil.
    - by intros ?%list_elem_of_singleton. }
  induction data as [|c rest IH]; intros skip cur tok b Htok Hb.
  - apply Hflush in Htok as ->. by left.
  - rewrite bytes_String. cbn [scanWords] in Htok. destruct skip as [|k].
    + destruct (spaceWidth (String c rest)) as [|k] eqn:Hw.
      * destruct (IH _ _ _ _ Htok Hb) as [Hin|Hin].
        -- rewrite bytes_app in Hin. apply elem_of_app in Hin as [Hin|Hin];
             [by left|]. right. apply list_elem_of_singleton in Hin as ->. left.
        -- right. by right.
      * apply elem_of_app in Htok as [Htok|Htok].
        -- apply Hflush in Htok as ->. by left.
        -- destruct (IH _ _ _ _ Htok Hb) as [Hin|Hin];
             [by apply elem_of_nil in Hin|]. right. by right.
    + destruct (IH _ _ _ _ Htok Hb) as [Hin|Hin]; [by left|]. right. by right.
Qed.

(** ** Results *)

Lemma bind_Ok {A B} (a : A) (k : A → result B) : Ok a ≫= k = k a.
Proof. reflexivity. Qed.

Lemma bind_Panicked {A B} (p : panic) (k : A → result B) :
  Panicked p ≫= k = Panicked p.
Proof. reflexivity. Qed.

Lemma panics_bind {A B} (r : result A) (k : A → result B) :
  panics r → panics (r ≫= k).
Proof. intros [p ->]. by exists p. Qed.

Ltac bind_steps := rewrite ?bind_Ok, ?bind_Panicked; cbv beta.

(** ** The start word and the words of the input *)

(** C9, as the claim states it, fails: the start word is two
    double-quote bytes, which white-space tokenization yields as a word
    when the input holds it. *)
Lemma startWord_is_read_as_a_word :
  ScanWords ("say " +:+ startWord) = ["say"; startWord].
Proof. reflexivity. Qed.

(** C9, amended: no word read from the input is empty, and no word read
    from an input free of the double-quote byte equals the start word
    that [Build], [FileToFreqTable] and [Generate] fill the first window
    with. *)
Theorem words_differ_from_startWord (data tok : string) :
  tok ∈ ScanWords data →
  tok ≠ "" ∧ (quoteByte ∉ bytes data → tok ≠ startWord).
Proof.
  intros Htok. split.
  - pose proof (ScanWords_tokens data) as Hall.
    rewrite Forall_forall in Hall. by destruct (Hall _ Htok).
  - intros Hq ->. apply Hq.
    destruct (scanWords_bytes data 0 "" startWord quoteByte Htok) as [Hin|Hin];
      [by left| |done].
    by apply elem_of_nil in Hin.
Qed.

Lemma words_differ_from_startWord_witness :
  "am" ∈ ScanWords "I am" ∧
  ("am" ≠ "" ∧ (quoteByte ∉ bytes "I am" → "am" ≠ startWord)).
Proof.
  assert ("am" ∈ ScanWords "I am") as Hin.
  { vm_compute. apply list_elem_of_In. simpl. tauto. }
  split; [exact Hin|]. exact (words_differ_from_startWord "I am" "am" Hin).
Defined.

(** ** Shifting the prefix *)

Lemma countWord_ok c p s :
  p ≠ [] →
  ∃ c' p', countWord (c, p) s = Ok (c', p') ∧ length p' = length p ∧
           prefixLen c' = prefixLen c.
Proof.
  intros Hp. destruct p as [|w p]; [done|].
  eexists _, _. split; [reflexivity|]. split; [|done].
  rewrite length_app. simpl. lia.
Qed.

Lemma countWords_ok words : ∀ c p,
  p ≠ [] →
  ∃ c' p', countWords (c, p) words = Ok (c', p') ∧ length p' = length p ∧
           prefixLen c' = prefixLen c.
Proof.
  induction words as [|s words IH]; intros c p Hp.
  - by exists c, p.
  - destruct (countWord_ok c p s Hp) as (c1 & p1 & Hstep & Hlen & Hk).
    destruct (IH c1 p1) as (c2 & p2 & Hrest & Hlen2 & Hk2).
    { intros ->. destruct p; [done|]. simpl in Hlen. lia. }
    exists c2, p2. cbn [countWords]. rewrite Hstep. bind_steps.
    rewrite Hrest. split; [done|]. split; congruence.
Qed.

Lemma startPrefix_ok c :
  0 ≤ prefixLen c →
  startPrefix c = Ok (replicate (Z.to_nat (prefixLen c)) startWord).
Proof.
  intros Hk. unfold startPrefix.
  by destruct (Z.ltb_spec (prefixLen c) 0); [lia|].
Qed.

Lemma startPrefix_nonempty c :
  1 ≤ prefixLen c → replicate (Z.to_nat (prefixLen c)) startWord ≠ [].
Proof.
  intros Hk Hnil. apply (f_equal length) in Hnil.
  rewrite length_replicate in Hnil. simpl in Hnil. lia.
Qed.

Lemma countWords_empty_prefix c s words :
  countWords (c, []) (s :: words) = Panicked SliceBoundsOutOfRange.
Proof. reflexivity. Qed.

(** C6, as the claim states it, fails: with a prefix length of 0 the
    first [Shift] slices an empty prefix out of bounds. *)
Lemma Build_prefixLen_0_panics :
  Build (NewChain 0) ["a"] = Panicked SliceBoundsOutOfRange ∧
  FileToFreqTable (NewChain 0) "a b" = Panicked SliceBoundsOutOfRange ∧
  Prefix_Shift [] "a" = Panicked SliceBoundsOutOfRange.
Proof. repeat split. Qed.

(** C6, amended: the reading loop needs a prefix of one word or more.
    With [prefixLen >= 1] every [Shift] succeeds and [Build] and
    [FileToFreqTable] return; with [prefixLen = 0] they panic in the
    first [Shift] as soon as the input has a word. *)
Theorem Shift_needs_a_word (c : Chain) (words : list string) (data : string) :
  (1 ≤ prefixLen c →
     (∃ c', Build c words = Ok c' ∧ prefixLen c' = prefixLen c) ∧
     (∃ c', FileToFreqTable c data = Ok c' ∧ prefixLen c' = prefixLen c)) ∧
  (prefixLen c = 0 →
     (words ≠ [] → Build c words = Panicked SliceBoundsOutOfRange) ∧
     (ScanWords data ≠ [] →
        FileToFreqTable c data = Panicked SliceBoundsOutOfRange)).
Proof.
  split.
  - intros Hk. unfold Build, FileToFreqTable.
    rewrite startPrefix_ok by lia. bind_steps.
    pose proof (startPrefix_nonempty c Hk) as Hne. split.
    + destruct (countWords_ok words c _ Hne) as (c' & p' & -> & _ & Hk').
      by exists c'.
    + destruct (countWords_ok (ScanWords data) c _ Hne) as (c' & p' & -> & _ & Hk').
      by exists c'.
  - intros Hk. unfold Build, FileToFreqTable.
    rewrite startPrefix_ok by lia. bind_steps. rewrite Hk.
    change (replicate (Z.to_nat 0) startWord) with (@nil string). split.
    + destruct words as [|s words]; [done|]. intros _.
      by rewrite countWords_empty_prefix.
    + destruct (ScanWords data) as [|s ws]; [done|]. intros _.
      by rewrite countWords_empty_prefix.
Qed.

Lemma Shift_needs_a_word_witness :
  (∃ c', Build (NewChain 2) ["I"; "am"] = Ok c' ∧ prefixLen c' = 2) ∧
  Build (NewChain 0) ["I"; "am"] = Panicked SliceBoundsOutOfRange.
Proof.
  split.
  - apply (proj1 (Shift_needs_a_word (NewChain 2) ["I"; "am"] "")).
    simpl. lia.
  - apply (proj2 (Shift_needs_a_word (NewChain 0) ["I"; "am"] ""));
      [reflexivity | discriminate].
Defined.

(** ** Generation *)

Section walk.
Variable src : nat → nat → nat.

Lemma Intn_lt i n : (0 < n)%nat → (Intn src i n < n)%nat.
Proof. intros Hn. unfold Intn. apply Nat.mod_upper_bound. lia. Qed.

Lemma generateLoop_spec c todo : ∀ i (p : Prefix) words,
  p ≠ [] →
  ∃ out,
    generateLoop src c todo i p words = Ok (words ++ out) ∧
    (length out ≤ todo)%nat ∧
    ((length out < todo)%nat →
       default [] (chain c !! Prefix_String (drop (length out) (p ++ out))) = []).
Proof.
  induction todo as [|todo IH]; intros i p words Hp.
  - exists []. rewrite app_nil_r. split; [done|]. simpl. split; lia.
  - cbn [generateLoop]. cbv zeta.
    destruct (default [] (chain c !! Prefix_String p)) as [|ch choices] eqn:Hch.
    + exists []. rewrite !app_nil_r. split; [done|]. split; [simpl; lia|].
      intros _. cbn [length drop]. exact Hch.
    + set (all := ch :: choices) in *.
      change (length all =? 0)%nat with false. cbv iota.
      destruct (lookup_lt_is_Some_2 all (Intn src i (length all))) as [next Hnext].
      { apply Intn_lt. simpl. lia. }
      rewrite Hnext. destruct p as [|w p]; [done|].
      cbn [Prefix_Shift]. bind_steps.
      destruct (IH (S i) (p ++ [next]) (words ++ [next])) as (out & Hout & Hlen & Hend).
      { by destruct p. }
      exists (next :: out). rewrite Hout, <- app_assoc. split; [done|].
      split; [simpl; lia|]. intros Hlt. cbn [length drop app].
      rewrite <- app_assoc in Hend. apply Hend. simpl in Hlt. lia.
Qed.

(** C3, as the claim states it, fails: with a prefix length of 0 and a
    suffix recorded under the empty key, the first [Shift] panics and
    nothing is returned, though a word was requested and found. *)
Lemma Generate_prefixLen_0_panics :
  let data := "0" +:+ String LF ("a 1" +:+ String LF "") in
  let c := mkChain {[ "" := ["a"] ]} 0 {[ "" := {[ "a" := 1 ]} ]} in
  (c' ← FreqTableFromFreqFile data; Ok (@ChainFromFreqTable canonicalRange c'))
    = Ok c ∧
  chain c !! Prefix_String [] = Some ["a"] ∧
  Generate (λ _ _, 0%nat) c 1 = Panicked SliceBoundsOutOfRange.
Proof. repeat split. Qed.

(** C3, amended: for every [n >= 0] and every chain with a prefix of
    one word or more, [Generate(n)] returns at most [n] words, and
    exactly [n] unless the window it stopped at has no suffix recorded
    (no entry, or an empty one).  The same holds with a prefix length of
    0 when [n = 0] or when nothing is recorded under the empty key; in
    particular [n = 0] returns no word. *)
Theorem Generate_bound (c : Chain) (n : Z) :
  0 ≤ n → 0 ≤ prefixLen c →
  1 ≤ prefixLen c ∨ n = 0 ∨ default [] (chain c !! Prefix_String []) = [] →
  ∃ words,
    GenerateWords src c n = Ok words ∧
    Generate src c n = Ok (Join words " ") ∧
    Z.of_nat (length words) ≤ n ∧
    (Z.of_nat (length words) < n →
       default [] (chain c !! Prefix_String (windowAfter c words)) = []) ∧
    (n = 0 → words = []).
Proof.
  intros Hn Hk0 Hk. unfold Generate, GenerateWords.
  rewrite startPrefix_ok by lia. bind_steps.
  destruct (decide (1 ≤ prefixLen c)) as [Hk1|Hk1].
  - destruct (generateLoop_spec c (Z.to_nat n) 0
                (replicate (Z.to_nat (prefixLen c)) startWord) [])
      as (out & Hout & Hlen & Hend); [by apply startPrefix_nonempty|].
    exists out. rewrite Hout. simpl. split; [done|]. split; [done|].
    split; [lia|]. split.
    + intros Hlt. apply Hend. lia.
    + intros ->. destruct out; [done|]. simpl in Hlen. lia.
  - assert (prefixLen c = 0) as Hzero by lia.
    unfold windowAfter. rewrite Hzero.
    change (replicate (Z.to_nat 0) startWord) with (@nil string).
    exists []. destruct Hk as [Hk|[->|Hk]]; [lia| |].
    + simpl. split; [done|]. split; [done|]. split; [lia|]. split; [lia|done].
    + assert (generateLoop src c (Z.to_nat n) 0 [] [] = Ok []) as ->.
      { destruct (Z.to_nat n) as [|todo]; [done|].
        cbn [generateLoop]. cbv zeta. by rewrite Hk. }
      simpl. split; [done|]. split; [done|]. split; [lia|]. by split.
Qed.
End walk.

Lemma Generate_bound_witness :
  ∃ words,
    GenerateWords (λ _ _, 0%nat) (mkChain {[ startWord := ["a"] ]} 1 ∅) 5 = Ok words ∧
    Generate (λ _ _, 0%nat) (mkChain {[ startWord := ["a"] ]} 1 ∅) 5
      = Ok (Join words " ") ∧
    Z.of_nat (length words) ≤ 5 ∧
    (Z.of_nat (length words) < 5 →
       default [] (chain (mkChain {[ startWord := ["a"] ]} 1 ∅)
                     !! Prefix_String
                          (windowAfter (mkChain {[ startWord := ["a"] ]} 1 ∅) words))
       = []) ∧
    (5 = 0 → words = []).
Proof.
  apply (Generate_bound (λ _ _, 0%nat) (mkChain {[ startWord := ["a"] ]} 1 ∅) 5).
  - lia.
  - simpl. lia.
  - left. simpl. lia.
Defined.

(** ** Decoding: lines of the table file *)

Lemma readLines_app pre : ∀ c0 lines,
  readLines c0 (pre ++ lines) = c ← readLines c0 pre; readLines c lines.
Proof.
  induction pre as [|l pre IH]; intros c0 lines; [done|].
  cbn [app readLines]. destruct (readLine c0 l) as [c1|p]; [|done].
  bind_steps. apply IH.
Qed.

Lemma readLines_reached c0 pre c line rest :
  readLines c0 pre = Ok c →
  readLines c0 (pre ++ line :: rest) = c' ← readLine c line; readLines c' rest.
Proof. intros Hpre. by rewrite readLines_app, Hpre. Qed.

Lemma readLine_data c line :
  (1 < length (Split line SP))%nat →
  readLine c line = readDataLine c (Split line SP).
Proof.
  intros Hlen. unfold readLine.
  by destruct (Nat.ltb_spec 1 (length (Split line SP))); [|lia].
Qed.

Lemma readPairs_odd n : ∀ rest val,
  length rest = n → Z.odd (Z.of_nat n) = true → panics (readPairs rest val).
Proof.
  induction n as [n IH] using lt_wf_ind. intros rest val Hlen Hodd.
  destruct rest as [|sfx [|cnt rest]].
  - subst n. discriminate.
  - by eexists.
  - cbn [readPairs]. destruct (Atoi cnt) as [v|]; [|by eexists].
    apply (IH (length rest)); [simpl in Hlen; lia|done|].
    subst n. cbn [length] in Hodd.
    by rewrite !Nat2Z.inj_succ, Z.odd_succ, Z.even_succ in Hodd.
Qed.


Lemma readDataLine_pairs c items :
  0 ≤ prefixLen c ≤ Z.of_nat (length items) →
  readDataLine c items =
    val ← readPairs (drop (Z.to_nat (prefixLen c)) items) ∅;
    Ok (mkChain (chain c) (prefixLen c)
          (<[Prefix_String (take (Z.to_nat (prefixLen c)) items) := val]>
             (freqTable c))).
Proof.
  intros [Hlo Hhi]. unfold readDataLine.
  destruct (Z.ltb_spec (Z.of_nat (length items)) (prefixLen c)); [lia|].
  by destruct (Z.ltb_spec (prefixLen c) 0); [lia|].
Qed.

Lemma readDataLine_odd c items :
  Z.odd (Z.of_nat (length items) - prefixLen c) = true →
  panics (readDataLine c items).
Proof.
  intros Hodd. unfold readDataLine.
  destruct (Z.ltb_spec (Z.of_nat (length items)) (prefixLen c)); [by eexists|].
  destruct (Z.ltb_spec (prefixLen c) 0).
  - destruct (prefixLen c =? -1); [|by eexists].
    destruct (Atoi _); by eexists.
  - apply panics_bind.
    apply (readPairs_odd (length items - Z.to_nat (prefixLen c))).
    + by rewrite length_drop.
    + rewrite <- Hodd. f_equal. lia.
Qed.

(** C10: when decoding reaches a line that is a single non-empty field,
    the line is read as a prefix-length line wherever it stands in the
    file: if the field parses as an integer, that integer becomes the
    prefix length used for the lines after it and the line is not
    rejected (if it does not parse, the conversion panics).  An empty
    line changes nothing. *)
Theorem single_field_line_sets_prefixLen
    (data : string) (pre rest : list string) (line : string) (c : Chain) :
  ScanLines data = pre ++ line :: rest →
  readLines (NewChain 0) pre = Ok c →
  (line = "" → FreqTableFromFreqFile data = readLines c rest) ∧
  (∀ (item : string) (n : Z),
     Split line SP = [item] → item ≠ "" → Atoi item = Some n →
     FreqTableFromFreqFile data
       = readLines (mkChain (chain c) n (freqTable c)) rest) ∧
  (∀ (item : string),
     Split line SP = [item] → item ≠ "" → Atoi item = None →
     FreqTableFromFreqFile data = Panicked convPanic).
Proof.
  intros Hdata Hpre. unfold FreqTableFromFreqFile.
  rewrite Hdata, (readLines_reached _ _ c) by done.
  split; [by intros ->|].
  split.
  - intros item n Hsplit Hne Hint.
    unfold readLine. rewrite Hsplit. cbn [length Nat.ltb Nat.leb].
    destruct item as [|a item]; [done|]. cbn [String.length Nat.ltb Nat.leb].
    by rewrite Hint.
  - intros item Hsplit Hne Hint.
    unfold readLine. rewrite Hsplit. cbn [length Nat.ltb Nat.leb].
    destruct item as [|a item]; [done|]. cbn [String.length Nat.ltb Nat.leb].
    by rewrite Hint.
Qed.

Lemma single_field_line_sets_prefixLen_witness :
  let data := "2" +:+ String LF ("3" +:+ String LF ("a b c x 1" +:+ String LF "")) in
  ScanLines data = ["2"] ++ "3" :: ["a b c x 1"] ∧
  readLines (NewChain 0) ["2"] = Ok (NewChain 2) ∧
  FreqTableFromFreqFile data = readLines (mkChain ∅ 3 ∅) ["a b c x 1"].
Proof.
  intros data. split; [reflexivity|]. split; [reflexivity|].
  apply (proj1 (proj2 (single_field_line_sets_prefixLen data ["2"]
                         ["a b c x 1"] "3" (NewChain 2) eq_refl eq_refl)) "3" 3);
    [reflexivity | discriminate | reflexivity].
Defined.

(** C5, as the claim states it, fails: with a prefix length of 0, a line
    of one field has an odd number of fields after the prefix, and it is
    read as a new prefix length instead of being rejected. *)
Lemma odd_single_field_accepted :
  let data := "0" +:+ String LF ("5" +:+ String LF "") in
  ScanLines data = ["0"; "5"] ∧
  readLines (NewChain 0) ["0"] = Ok (NewChain 0) ∧
  Z.odd (Z.of_nat (length (Split "5" SP)) - prefixLen (NewChain 0)) = true ∧
  FreqTableFromFreqFile data = Ok (NewChain 5).
Proof. repeat split. Qed.

(** C5, amended: when decoding reaches a line of two fields or more
    whose number of fields after the first [prefixLen] ones is odd, it
    panics (conversion failure, or index out of range at the lone last
    field) and [FreqTableFromFreqFile] returns no table. *)
Theorem odd_remainder_panics
    (data : string) (pre rest : list string) (line : string) (c : Chain) :
  ScanLines data = pre ++ line :: rest →
  readLines (NewChain 0) pre = Ok c →
  (1 < length (Split line SP))%nat →
  Z.odd (Z.of_nat (length (Split line SP)) - prefixLen c) = true →
  panics (FreqTableFromFreqFile data).
Proof.
  intros Hdata Hpre Hlen Hodd. unfold FreqTableFromFreqFile.
  rewrite Hdata, (readLines_reached _ _ c) by done.
  apply panics_bind. rewrite readLine_data by done.
  by apply readDataLine_odd.
Qed.

Lemma odd_remainder_panics_witness :
  let data := "2" +:+ String LF ("I am a 1 not" +:+ String LF "") in
  ScanLines data = ["2"] ++ "I am a 1 not" :: [] ∧
  readLines (NewChain 0) ["2"] = Ok (NewChain 2) ∧
  (1 < length (Split "I am a 1 not" SP))%nat ∧
  Z.odd (Z.of_nat (length (Split "I am a 1 not" SP)) - prefixLen (NewChain 2)) = true ∧
  panics (FreqTableFromFreqFile data).
Proof.
  assert (1 < length (Split "I am a 1 not" SP))%nat as Hlen by (vm_compute; lia).
  repeat split; try reflexivity; try exact Hlen.
  apply (odd_remainder_panics _ ["2"] [] "I am a 1 not" (NewChain 2));
    [reflexivity | reflexivity | exact Hlen | reflexivity].
Defined.




(** ** Folding insertions over the entries of a map *)

Section insert_all.
Context {A B : Type} (f : A → B).

Lemma foldl_insert_notin (l : list (string * A)) : ∀ (m0 : gmap string B) k,
  k ∉ l.*1 →
  foldl (λ ch kv, <[kv.1 := f kv.2]> ch) m0 l !! k = m0 !! k.
Proof.
  induction l as [|[k1 v1] l IH]; intros m0 k Hk; [done|].
  rewrite fmap_cons, not_elem_of_cons in Hk. destruct Hk as [Hne Hk].
  cbn [foldl]. rewrite IH by done. by apply lookup_insert_ne.
Qed.

Lemma foldl_insert_in (l : list (string * A)) : ∀ (m0 : gmap string B) k v,
  NoDup l.*1 → (k, v) ∈ l →
  foldl (λ ch kv, <[kv.1 := f kv.2]> ch) m0 l !! k = Some (f v).
Proof.
  induction l as [|[k1 v1] l IH]; intros m0 k v Hnd Hin.
  - by apply elem_of_nil in Hin.
  - rewrite fmap_cons in Hnd. apply NoDup_cons in Hnd as [Hk1 Hnd].
    cbn [foldl]. apply elem_of_cons in Hin as [Heq|Hin].
    + injection Heq as -> ->. rewrite foldl_insert_notin by done.
      apply lookup_insert_eq.
    + by apply IH.
Qed.
End insert_all.

Section ranging.
Context `{MapRange}.

Lemma rangeMap_NoDup {A} (m : gmap string A) : NoDup (rangeMap m).*1.
Proof. rewrite rangeMap_perm. apply NoDup_fst_map_to_list. Qed.

Lemma elem_of_rangeMap {A} (m : gmap string A) k v :
  (k, v) ∈ rangeMap m ↔ m !! k = Some v.
Proof. rewrite rangeMap_perm. apply elem_of_map_to_list. Qed.

Lemma elem_of_rangeMap_keys {A} (m : gmap string A) k :
  k ∈ (rangeMap m).*1 ↔ is_Some (m !! k).
Proof.
  rewrite list_elem_of_fmap. split.
  - intros ([k' v] & -> & Hin). apply elem_of_rangeMap in Hin. by exists v.
  - intros [v Hv]. exists (k, v). split; [done|]. by apply elem_of_rangeMap.
Qed.

Lemma list_to_map_rangeMap {A} (m : gmap string A) :
  list_to_map (rangeMap m) = m.
Proof.
  rewrite <- (list_to_map_to_list m) at 2.
  apply list_to_map_proper; [apply rangeMap_NoDup | apply rangeMap_perm].
Qed.

End ranging.

(** ** Sums of counts *)

Lemma sumZ_cons x l : sumZ (x :: l) = x + sumZ l.
Proof. reflexivity. Qed.

Lemma sumZ_app l1 l2 : sumZ (l1 ++ l2) = sumZ l1 + sumZ l2.
Proof. induction l1 as [|x l1 IH]; simpl; [done|]. rewrite IH. lia. Qed.

Global Instance sumZ_perm : Proper ((≡ₚ) ==> (=)) sumZ.
Proof.
  intros l1 l2 Hp. induction Hp as [|x l1 l2 _ IH|x y l|l1 l2 l3 _ IH1 _ IH2];
    simpl; lia.
Qed.

Lemma sumOver_insert_fresh {A} (f : A → Z) (m : gmap string A) k x :
  m !! k = None → sumOver f (<[k := x]> m) = f x + sumOver f m.
Proof.
  intros Hk. unfold sumOver. by rewrite map_to_list_insert.
Qed.

Lemma sumOver_insert_present {A} (f : A → Z) (m : gmap string A) k x old :
  m !! k = Some old → sumOver f (<[k := x]> m) = f x - f old + sumOver f m.
Proof.
  intros Hk.
  rewrite <- (insert_delete_eq m k x).
  rewrite <- (insert_delete_id m k old) at 2 by done.
  rewrite !sumOver_insert_fresh by apply lookup_delete_eq. lia.
Qed.

Lemma sumOver_empty {A} (f : A → Z) : sumOver f (∅ : gmap string A) = 0.
Proof. unfold sumOver. by rewrite map_to_list_empty. Qed.

Lemma sumOver_lookup_le {A} (f : A → Z) (m : gmap string A) k x :
  map_Forall (λ _ y, 0 ≤ f y) m → m !! k = Some x → f x ≤ sumOver f m.
Proof.
  intros Hall Hk. rewrite <- (insert_delete_id m k x) by done.
  rewrite sumOver_insert_fresh by apply lookup_delete_eq.
  assert (0 ≤ sumOver f (delete k m)); [|lia].
  assert (map_Forall (λ _ y, 0 ≤ f y) (delete k m)) as Hdel.
  { intros k' y Hy. apply (Hall k' y). by apply lookup_delete_Some in Hy as [_ ?]. }
  clear Hk Hall. revert Hdel. generalize (delete k m). clear.
  intros m. induction m as [|k y m Hk IH] using map_ind.
  - rewrite sumOver_empty. lia.
  - intros Hall. rewrite sumOver_insert_fresh by done.
    apply map_Forall_insert in Hall as [Hy Hall]; [|done].
    specialize (IH Hall). lia.
Qed.

(** ** Expansion of the counts *)

Lemma occurrences_app s l1 l2 :
  occurrences s (l1 ++ l2) = (occurrences s l1 + occurrences s l2)%nat.
Proof. unfold occurrences. by rewrite filter_app, length_app. Qed.

Lemma occurrences_replicate s n k :
  occurrences s (replicate n k) = if decide (k = s) then n else 0%nat.
Proof.
  unfold occurrences. induction n as [|n IH]; cbn [replicate].
  - by destruct (decide (k = s)).
  - destruct (decide (k = s)) as [Heq|Hne].
    + rewrite filter_cons_True by done. simpl. by rewrite IH.
    + by rewrite filter_cons_False.
Qed.

Lemma expand_length (l : list (string * Z)) :
  Forall (λ kv, 0 ≤ kv.2) l →
  Z.of_nat (length (kv ← l; replicate (Z.to_nat kv.2) kv.1)) = sumZ l.*2.
Proof.
  induction l as [|[k v] l IH]; [done|]. intros [Hv Hl]%Forall_cons.
  rewrite bind_cons, length_app, length_replicate, Nat2Z.inj_add, IH by done.
  rewrite fmap_cons, sumZ_cons. cbn [fst snd] in *. lia.
Qed.

Lemma expand_occurrences s (l : list (string * Z)) :
  NoDup l.*1 → Forall (λ kv, 0 ≤ kv.2) l →
  Z.of_nat (occurrences s (kv ← l; replicate (Z.to_nat kv.2) kv.1))
    = default 0 ((list_to_map l : gmap string Z) !! s).
Proof.
  induction l as [|[k v] l IH]; [done|].
  rewrite fmap_cons. intros [Hk Hnd]%NoDup_cons [Hv Hl]%Forall_cons.
  rewrite bind_cons, occurrences_app, occurrences_replicate, Nat2Z.inj_add, IH
    by done.
  rewrite list_to_map_cons. cbn [fst snd] in *.
  destruct (decide (k = s)) as [->|Hne].
  - rewrite lookup_insert_eq.
    apply (not_elem_of_list_to_map (M := gmap string)) in Hk. rewrite Hk.
    simpl. lia.
  - rewrite lookup_insert_ne by done. lia.
Qed.

Section expand.
Context `{MapRange}.

Lemma expandSuffixes_alt (val : gmap string Z) :
  expandSuffixes val = kv ← rangeMap val; replicate (Z.to_nat kv.2) kv.1.
Proof.
  unfold expandSuffixes. apply list_bind_ext; [by intros [k v]|done].
Qed.

Lemma rangeMap_nonneg (val : gmap string Z) :
  map_Forall (λ _ v, 0 ≤ v) val → Forall (λ kv, 0 ≤ kv.2) (rangeMap val).
Proof.
  intros Hall. apply Forall_forall. intros [k v] Hin.
  apply elem_of_rangeMap in Hin. by apply (Hall k v).
Qed.

Lemma ChainFromFreqTable_lookup (c : Chain) key val :
  freqTable c !! key = Some val →
  chain (ChainFromFreqTable c) !! key = Some (expandSuffixes val).
Proof.
  intros Hkey. unfold ChainFromFreqTable. cbn [chain].
  apply (foldl_insert_in expandSuffixes); [apply rangeMap_NoDup|].
  by apply elem_of_rangeMap.
Qed.

(** C2: for every prefix key of the table, whose counts are not
    negative (the data model has them at 1 or more),
    [ChainFromFreqTable] stores a suffix sequence whose length is the sum
    of the key's counts and in which every suffix [s] occurs
    [table[key][s]] times (0 times when [s] is not recorded). *)
Theorem expansion_fidelity (c : Chain) (key : string) (val : gmap string Z) :
  freqTable c !! key = Some val →
  map_Forall (λ _ v, 0 ≤ v) val →
  ∃ sfxs,
    chain (ChainFromFreqTable c) !! key = Some sfxs ∧
    Z.of_nat (length sfxs) = mapSum val ∧
    ∀ s, Z.of_nat (occurrences s sfxs) = default 0 (val !! s).
Proof.
  intros Hkey Hpos. exists (expandSuffixes val).
  split; [by apply ChainFromFreqTable_lookup|].
  pose proof (rangeMap_nonneg val Hpos) as Hall.
  rewrite expandSuffixes_alt. split.
  - rewrite expand_length by done. unfold mapSum, sumOver.
    by rewrite list_fmap_id, rangeMap_perm.
  - intros s. rewrite expand_occurrences by (done || apply rangeMap_NoDup).
    by rewrite list_to_map_rangeMap.
Qed.

(** The table is left as it was, so the expansion can be made again. *)
Lemma ChainFromFreqTable_freqTable (c : Chain) :
  freqTable (ChainFromFreqTable c) = freqTable c ∧
  prefixLen (ChainFromFreqTable c) = prefixLen c.
Proof. done. Qed.
End expand.

Lemma expansion_fidelity_witness :
  let val : gmap string Z := {[ "a" := 1; "not" := 2 ]} in
  let c := mkChain ∅ 2 {[ "I am" := val ]} in
  ∃ sfxs,
    chain (@ChainFromFreqTable canonicalRange c) !! "I am" = Some sfxs ∧
    Z.of_nat (length sfxs) = mapSum val ∧
    ∀ s, Z.of_nat (occurrences s sfxs) = default 0 (val !! s).
Proof.
  intros val c.
  apply (@expansion_fidelity canonicalRange c "I am" val).
  - reflexivity.
  - apply (bool_decide_unpack (map_Forall (λ _ v, 0 ≤ v) val)).
    vm_compute. exact I.
Defined.

(** ** Counting the words of a stream *)

Lemma wrapInt_id z : isInt z → wrapInt z = z.
Proof.
  unfold isInt, intMin, intMax, wrapInt. intros Hz.
  rewrite Z.mod_small; lia.
Qed.

Lemma wrapInt_isInt z : isInt (wrapInt z).
Proof.
  unfold isInt, intMin, intMax, wrapInt.
  pose proof (Z.mod_pos_bound (z + 2 ^ 63) (2 ^ 64)). lia.
Qed.

Lemma mapSum_insert_fresh (val : gmap string Z) s v :
  val !! s = None → mapSum (<[s := v]> val) = v + mapSum val.
Proof. apply (sumOver_insert_fresh id). Qed.

Lemma mapSum_insert_present (val : gmap string Z) s v old :
  val !! s = Some old → mapSum (<[s := v]> val) = v - old + mapSum val.
Proof. apply (sumOver_insert_present id). Qed.

Lemma mapSum_singleton s v : mapSum ({[ s := v ]} : gmap string Z) = v.
Proof.
  rewrite <- insert_empty, mapSum_insert_fresh by apply lookup_empty.
  unfold mapSum. rewrite sumOver_empty. lia.
Qed.

Lemma counted_empty : counted 0 ∅.
Proof.
  split; [apply sumOver_empty|]. intros key val s v Hkey.
  by rewrite lookup_empty in Hkey.
Qed.

Lemma countWord_counted c (p : Prefix) s c' p' n :
  countWord (c, p) s = Ok (c', p') →
  0 ≤ n < intMax →
  counted n (freqTable c) → counted (n + 1) (freqTable c').
Proof.
  intros Hstep Hn [Htot Hbound]. unfold countWord in Hstep.
  destruct p as [|w p]; [done|]. cbn [Prefix_Shift] in Hstep.
  rewrite bind_Ok in Hstep. injection Hstep as <- _. cbn [freqTable].
  set (key := Prefix_String (w :: p)).
  destruct (freqTable c !! key) as [val|] eqn:Hkey.
  - assert (∃ old, default 0 (val !! s) = old ∧ 0 ≤ old ≤ n ∧
              mapSum (<[s := old + 1]> val) = mapSum val + 1) as (old & -> & Hold & Hsum).
    { destruct (val !! s) as [v0|] eqn:Hs.
      - exists v0. split; [done|]. pose proof (Hbound _ _ _ _ Hkey Hs).
        split; [lia|]. rewrite (mapSum_insert_present _ _ _ v0) by done. lia.
      - exists 0. split; [done|]. split; [lia|].
        rewrite mapSum_insert_fresh by done. lia. }
    rewrite wrapInt_id by (unfold isInt, intMin, intMax in *; lia). split.
    + unfold tableTotal in *.
      rewrite (sumOver_insert_present mapSum _ _ _ val) by done. lia.
    + intros key' val' s' v' Hkey' Hs'.
      destruct (decide (key' = key)) as [->|Hne].
      * rewrite lookup_insert_eq in Hkey'. injection Hkey' as <-.
        destruct (decide (s' = s)) as [->|Hne'].
        -- rewrite lookup_insert_eq in Hs'. injection Hs' as <-. lia.
        -- rewrite lookup_insert_ne in Hs' by done.
           pose proof (Hbound _ _ _ _ Hkey Hs'). lia.
      * rewrite lookup_insert_ne in Hkey' by done.
        pose proof (Hbound _ _ _ _ Hkey' Hs'). lia.
  - split.
    + unfold tableTotal in *. rewrite sumOver_insert_fresh by done.
      rewrite mapSum_singleton. lia.
    + intros key' val' s' v' Hkey' Hs'.
      destruct (decide (key' = key)) as [->|Hne].
      * rewrite lookup_insert_eq in Hkey'. injection Hkey' as <-.
        apply lookup_singleton_Some in Hs' as [_ <-]. lia.
      * rewrite lookup_insert_ne in Hkey' by done.
        pose proof (Hbound _ _ _ _ Hkey' Hs'). lia.
Qed.

Lemma countWords_counted words : ∀ c (p : Prefix) c' p' n,
  countWords (c, p) words = Ok (c', p') →
  0 ≤ n → n + Z.of_nat (length words) ≤ intMax →
  counted n (freqTable c) →
  counted (n + Z.of_nat (length words)) (freqTable c').
Proof.
  induction words as [|s words IH]; intros c p c' p' n Hrun Hn Hmax Hc.
  - injection Hrun as <- _. by rewrite Z.add_0_r.
  - cbn [countWords] in Hrun. cbn [length] in Hmax |- *.
    destruct (countWord (c, p) s) as [[c1 p1]|] eqn:Hstep; [|done].
    rewrite bind_Ok in Hrun.
    replace (n + Z.of_nat (S (length words)))
      with ((n + 1) + Z.of_nat (length words)) by lia.
    apply (IH c1 p1 c' p'); [done|lia|lia|].
    apply (countWord_counted c p s c1 p1); [done|lia|done].
Qed.

(** C4: starting from an empty table with [prefixLen >= 1], reading a
    stream of [L] words (as many as an int can count) makes [L]
    increments: the counts of the table add up to [L], the words read
    against the start prefix included.  This holds for [Build] on the
    words of a reader and for [FileToFreqTable] on the words of a
    file. *)
Theorem count_conservation (k : Z) (words : list string) (data : string) :
  1 ≤ k →
  (Z.of_nat (length words) ≤ intMax →
     ∃ c, Build (NewChain k) words = Ok c ∧
          tableTotal (freqTable c) = Z.of_nat (length words)) ∧
  (Z.of_nat (length (ScanWords data)) ≤ intMax →
     ∃ c, FileToFreqTable (NewChain k) data = Ok c ∧
          tableTotal (freqTable c) = Z.of_nat (length (ScanWords data))).
Proof.
  intros Hk.
  assert (∀ ws, Z.of_nat (length ws) ≤ intMax →
            ∃ c p, countWords (NewChain k, replicate (Z.to_nat k) startWord) ws
                     = Ok (c, p) ∧
                   tableTotal (freqTable c) = Z.of_nat (length ws)) as Hloop.
  { intros ws Hlen.
    destruct (countWords_ok ws (NewChain k) (replicate (Z.to_nat k) startWord))
      as (c & p & Hrun & _); [by apply (startPrefix_nonempty (NewChain k))|].
    exists c, p. split; [done|].
    destruct (countWords_counted ws _ _ _ _ 0 Hrun) as [Htot _];
      [lia|lia|apply counted_empty|]. by rewrite Htot. }
  unfold Build, FileToFreqTable.
  rewrite (startPrefix_ok (NewChain k)) by (simpl; lia). bind_steps.
  cbn [prefixLen NewChain]. split; intros Hlen.
  - destruct (Hloop words Hlen) as (c & p & -> & Htot). by exists c.
  - destruct (Hloop (ScanWords data) Hlen) as (c & p & -> & Htot). by exists c.
Qed.

Lemma count_conservation_witness :
  1 ≤ 2 ∧
  ∃ c, FileToFreqTable (NewChain 2) "I am not a number I am a free man" = Ok c ∧
       tableTotal (freqTable c)
         = Z.of_nat (length (ScanWords "I am not a number I am a free man")).
Proof.
  assert (1 ≤ 2) as Hk by lia. split; [exact Hk|].
  apply (proj2 (count_conservation 2 [] "I am not a number I am a free man" Hk)).
  vm_compute. discriminate.
Defined.

(** ** The sorted encoding *)

Lemma le_ne_strLt s1 s2 : String.le s1 s2 → s1 ≠ s2 → strLt s1 s2.
Proof.
  unfold String.le, strLt, String.leb, String.ltb. intros Hle Hne.
  destruct (String.compare s1 s2) eqn:Hcmp; [|done|done].
  by apply String.compare_eq_iff in Hcmp.
Qed.

Lemma StronglySorted_strict (l : list string) :
  StronglySorted String.le l → NoDup l → StronglySorted strLt l.
Proof.
  induction 1 as [|x l Hsorted IH Hall]; [constructor|].
  intros [Hx Hnd]%NoDup_cons. constructor; [by apply IH|].
  rewrite Forall_forall in Hall |- *. intros y Hy.
  apply le_ne_strLt; [by apply Hall|]. by intros ->.
Qed.

Section encode.
Context `{MapRange}.

Lemma sortedKeys_perm (c : Chain) : sortedKeys c ≡ₚ (rangeMap (freqTable c)).*1.
Proof. apply merge_sort_Permutation. Qed.

Lemma sortedKeys_NoDup (c : Chain) : NoDup (sortedKeys c).
Proof. rewrite sortedKeys_perm. apply rangeMap_NoDup. Qed.

Lemma elem_of_sortedKeys (c : Chain) key :
  key ∈ sortedKeys c ↔ is_Some (freqTable c !! key).
Proof. rewrite sortedKeys_perm. apply elem_of_rangeMap_keys. Qed.

Lemma sortedKeys_sorted (c : Chain) : StronglySorted strLt (sortedKeys c).
Proof.
  apply StronglySorted_strict; [|apply sortedKeys_NoDup].
  apply (StronglySorted_merge_sort String.le).
Qed.

Lemma FreqTableToFile_unlines (c : Chain) :
  FreqTableToFile c = unlines (FreqTableToFile_lines c).
Proof. unfold FreqTableToFile. by rewrite foldl_Fprintln, app_empty_l. Qed.

(** C8: the encoded text is the decimal prefix length on a first line,
    then one line per key of the table, each key once, the lines in
    strictly ascending byte order of their keys. *)
Theorem encoding_sorted (c : Chain) :
  ∃ keys,
    FreqTableToFile c = unlines (Itoa (prefixLen c) :: (tableLine c <$> keys)) ∧
    StronglySorted strLt keys ∧
    NoDup keys ∧
    (∀ key, key ∈ keys ↔ is_Some (freqTable c !! key)).
Proof.
  exists (sortedKeys c). split; [apply FreqTableToFile_unlines|].
  split; [apply sortedKeys_sorted|]. split; [apply sortedKeys_NoDup|].
  apply elem_of_sortedKeys.
Qed.
End encode.

(** ** Tokens *)

Lemma isDigit_not_space b : isDigit b → Ascii.is_space b = false.
Proof.
  unfold isDigit.
  destruct b as [[] [] [] [] [] [] [] []]; vm_compute; try done;
    by intros [? ?].
Qed.

Lemma noSpace_Itoa n : noSpace (Itoa n) ∧ Itoa n ≠ "".
Proof.
  unfold Itoa, FormatInt, noSpace. destruct (n <? 0) eqn:Hneg.
  - apply Z.ltb_lt in Hneg. split; [|done].
    destruct (formatBits_shape 19 (- n) "") as (ds & -> & _ & Hds); [lia|].
    rewrite app_empty_r, bytes_String. constructor; [done|].
    eapply Forall_impl; [exact Hds|]. apply isDigit_not_space.
  - apply Z.ltb_ge in Hneg.
    destruct (formatBits_shape 19 n "") as (ds & -> & Hne & Hds); [lia|].
    rewrite app_empty_r. split; [|done].
    eapply Forall_impl; [exact Hds|]. apply isDigit_not_space.
Qed.

Lemma isToken_startWord : isToken startWord.
Proof. split; [done|]. by repeat constructor. Qed.

Lemma noSpace_not_elem (b : ascii) t :
  Ascii.is_space b = true → noSpace t → b ∉ bytes t.
Proof.
  unfold noSpace. rewrite Forall_forall. intros Hb Ht Hin.
  specialize (Ht b Hin). congruence.
Qed.

Lemma Join_cons2 e e' rest sep :
  Join (e :: e' :: rest) sep = e +:+ sep +:+ Join (e' :: rest) sep.
Proof. reflexivity. Qed.

Lemma Join_app l1 l2 sep :
  l1 ≠ [] → l2 ≠ [] →
  Join (l1 ++ l2) sep = Join l1 sep +:+ sep +:+ Join l2 sep.
Proof.
  intros Hl1 Hl2. induction l1 as [|e [|e' l1] IH]; [done| |].
  - destruct l2 as [|e2 l2]; [done|]. reflexivity.
  - change ((e :: e' :: l1) ++ l2) with (e :: e' :: (l1 ++ l2)).
    rewrite !Join_cons2. change (e' :: l1 ++ l2) with ((e' :: l1) ++ l2).
    rewrite IH by done. by rewrite !string_app_assoc.
Qed.

Lemma Join_bytes (P : ascii → Prop) l :
  P SP → Forall (λ t, Forall P (bytes t)) l → Forall P (bytes (Join l " ")).
Proof.
  intros Hsp. induction l as [|e [|e' l] IH]; intros Hl.
  - constructor.
  - by apply Forall_cons in Hl as [He _].
  - apply Forall_cons in Hl as [He Hl]. rewrite Join_cons2, !bytes_app.
    apply Forall_app. split; [done|]. apply Forall_app. split; [|by apply IH].
    by repeat constructor.
Qed.

(** ** Tables built from token streams *)

Lemma wfTable_empty k : wfTable k ∅.
Proof. intros key val Hkey. by rewrite lookup_empty in Hkey. Qed.

Lemma countWord_wf k c (p : Prefix) s c' p' :
  countWord (c, p) s = Ok (c', p') →
  isToken s → Forall isToken p → length p = Z.to_nat k →
  wfTable k (freqTable c) →
  wfTable k (freqTable c') ∧ Forall isToken p' ∧ length p' = Z.to_nat k ∧
  prefixLen c' = prefixLen c.
Proof.
  intros Hstep Hs Hp Hlen Hwf. unfold countWord in Hstep.
  destruct p as [|w p]; [done|]. cbn [Prefix_Shift] in Hstep.
  rewrite bind_Ok in Hstep. injection Hstep as <- <-. cbn [freqTable prefixLen].
  split; [|split; [|split]]; [| | |done].
  - set (key := Prefix_String (w :: p)).
    assert (∃ val', (match freqTable c !! key with
                     | Some val =>
                         <[key := <[s := wrapInt (default 0 (val !! s) + 1)]> val]>
                           (freqTable c)
                     | None => <[key := {[s := 1]}]> (freqTable c)
                     end) = <[key := val']> (freqTable c) ∧ val' ≠ ∅ ∧
                    ∀ s' v, val' !! s' = Some v → isToken s' ∧ isInt v)
      as (val' & -> & Hne & Hval').
    { destruct (freqTable c !! key) as [val|] eqn:Hkey.
      - eexists. split; [done|]. split; [apply insert_non_empty|].
        intros s' v. destruct (decide (s' = s)) as [->|Hne].
        + rewrite lookup_insert_eq. intros [= <-].
          split; [done|apply wrapInt_isInt].
        + rewrite lookup_insert_ne by done.
          by apply (Hwf key val Hkey).
      - eexists. split; [done|]. split; [apply insert_non_empty|].
        intros s' v [-> <-]%lookup_singleton_Some. by split. }
    intros key' val. destruct (decide (key' = key)) as [->|Hne'].
    + rewrite lookup_insert_eq. intros [= <-]. split; [|done].
      by exists (w :: p).
    + rewrite lookup_insert_ne by done. apply Hwf.
  - apply Forall_cons in Hp as [_ Hp]. apply Forall_app. by split; [|constructor].
  - rewrite length_app. simpl in *. lia.
Qed.

Lemma countWords_wf k words : ∀ c (p : Prefix) c' p',
  countWords (c, p) words = Ok (c', p') →
  Forall isToken words → Forall isToken p → length p = Z.to_nat k →
  wfTable k (freqTable c) →
  wfTable k (freqTable c') ∧ prefixLen c' = prefixLen c.
Proof.
  induction words as [|s words IH]; intros c p c' p' Hrun Hwords Hp Hlen Hwf.
  - by injection Hrun as <- _.
  - cbn [countWords] in Hrun. apply Forall_cons in Hwords as [Hs Hwords].
    destruct (countWord (c, p) s) as [[c1 p1]|] eqn:Hstep; [|done].
    rewrite bind_Ok in Hrun.
    destruct (countWord_wf k c p s c1 p1) as (Hwf1 & Hp1 & Hlen1 & Hk1); try done.
    destruct (IH c1 p1 c' p') as [Hwf' Hk']; try done.
    split; [done|congruence].
Qed.

Lemma reading_wf c words c' :
  (p ← startPrefix c; cp ← countWords (c, p) words; Ok cp.1) = Ok c' →
  Forall isToken words →
  wfTable (prefixLen c) (freqTable c) →
  wfTable (prefixLen c) (freqTable c') ∧ prefixLen c' = prefixLen c.
Proof.
  unfold startPrefix. destruct (prefixLen c <? 0); [done|].
  rewrite bind_Ok.
  destruct (countWords _ words) as [[c1 p1]|] eqn:Hrun; [|done].
  rewrite bind_Ok. intros [= <-] Hwords Hwf.
  apply (countWords_wf (prefixLen c) words c _ c1 p1 Hrun); try done.
  - apply Forall_replicate. apply isToken_startWord.
  - apply length_replicate.
Qed.

Lemma builtFrom_wf k c :
  builtFrom k c → wfTable k (freqTable c) ∧ prefixLen c = k.
Proof.
  induction 1 as [|c data c' _ [IHwf IHk] Hrun|c words c' _ [IHwf IHk] Hwords Hrun].
  - split; [apply wfTable_empty|done].
  - subst k. destruct (reading_wf c (ScanWords data) c' Hrun) as [Hwf Hk];
      [apply ScanWords_tokens|done|]. by rewrite Hk.
  - subst k. destruct (reading_wf c words c' Hrun) as [Hwf Hk]; [done..|].
    by rewrite Hk.
Qed.

(** ** Decoding what was encoded *)



Lemma noSpace_line (l : list string) :
  Forall noSpace l →
  (LF ∉ bytes (Join l " ")) ∧ (CR ∉ bytes (Join l " ")).
Proof.
  intros Hl.
  assert (Forall (λ b, b ≠ LF ∧ b ≠ CR) (bytes (Join l " "))) as Hall.
  { apply Join_bytes; [done|]. eapply Forall_impl; [exact Hl|].
    intros t Ht. eapply Forall_impl; [exact Ht|].
    intros b Hb. split; intros ->; discriminate. }
  rewrite Forall_forall in Hall.
  split; intros Hin; by destruct (Hall _ Hin).
Qed.

Section decode_after_encode.
Context `{MapRange}.

Lemma sufCount_alt (val : gmap string Z) :
  sufCount val = kv ← rangeMap val; [kv.1; Itoa kv.2].
Proof. unfold sufCount. apply list_bind_ext; [by intros [k v]|done]. Qed.


Lemma sufCount_noSpace (val : gmap string Z) :
  (∀ s v, val !! s = Some v → isToken s ∧ isInt v) →
  Forall noSpace (sufCount val).
Proof.
  intros Hval. rewrite sufCount_alt. apply Forall_bind, Forall_forall.
  intros [s v] Hin. apply elem_of_rangeMap in Hin.
  destruct (Hval s v Hin) as [[_ Hs] _].
  repeat constructor; [done|]. apply noSpace_Itoa.
Qed.

Lemma sufCount_nonempty (val : gmap string Z) :
  val ≠ ∅ → (2 ≤ length (sufCount val))%nat.
Proof.
  intros Hne. rewrite sufCount_alt.
  destruct (rangeMap val) as [|[s v] l] eqn:Hl.
  - destruct Hne. apply map_to_list_empty_iff.
    apply Permutation_nil_r. by rewrite <- rangeMap_perm, Hl.
  - rewrite bind_cons, length_app. simpl. lia.
Qed.

(** The fields of an encoded data line, for a well-formed entry. *)
Lemma tableLine_fields (c : Chain) key val (toks : list string) :
  freqTable c !! key = Some val →
  key = Join toks " " → toks ≠ [] → Forall isToken toks →
  val ≠ ∅ → (∀ s v, val !! s = Some v → isToken s ∧ isInt v) →
  tableLine c key = Join (toks ++ sufCount val) " " ∧
  Forall noSpace (toks ++ sufCount val).
Proof.
  intros Hkey -> Htoks Htok Hne Hval. unfold tableLine. rewrite Hkey.
  cbn [default from_option id]. split.
  - rewrite Join_app; [done..|].
    pose proof (sufCount_nonempty val Hne) as Hlen. intros Heq.
    rewrite Heq in Hlen. simpl in Hlen. lia.
  - apply Forall_app. split; [|by apply sufCount_noSpace].
    eapply Forall_impl; [exact Htok|]. by intros t [_ ?].
Qed.



Lemma readLine_prefixLen_line (k : Z) :
  isInt k → readLine (NewChain 0) (Itoa k) = Ok (NewChain k).
Proof.
  intros Hk. destruct (noSpace_Itoa k) as [Hns Hne].
  unfold readLine. rewrite Split_no_sep by (by apply noSpace_not_elem).
  cbn [length Nat.ltb Nat.leb]. rewrite Atoi_Itoa by done.
  by destruct (Itoa k).
Qed.

Lemma FreqTableToFile_lines_plain (c : Chain) :
  1 ≤ prefixLen c →
  wfTable (prefixLen c) (freqTable c) →
  Forall (λ l, (LF ∉ bytes l) ∧ (CR ∉ bytes l)) (FreqTableToFile_lines c).
Proof.
  intros Hk Hwf. unfold FreqTableToFile_lines. constructor.
  - destruct (noSpace_Itoa (prefixLen c)) as [Hns _].
    split; by apply noSpace_not_elem.
  - apply Forall_fmap, Forall_forall. intros key [val Hkey]%elem_of_sortedKeys.
    destruct (Hwf key val Hkey) as ((toks & Hjoin & Hlen & Htoks) & Hne & Hval).
    assert (toks ≠ []) as Hnil by (intros ->; simpl in Hlen; lia).
    destruct (tableLine_fields c key val toks) as [Hline Hfields]; try done.
    cbn [compose]. rewrite Hline. by apply noSpace_line.
Qed.


(** For a built table the lines of the encoded text are the printed
    lines: no key, suffix or count carries a line break. *)
Lemma encoded_lines_of_built (k : Z) (c : Chain) :
  1 ≤ k → builtFrom k c →
  ScanLines (FreqTableToFile c) = FreqTableToFile_lines c.
Proof.
  intros Hk [Hwf <-]%builtFrom_wf.
  rewrite FreqTableToFile_unlines. apply ScanLines_unlines.
  by apply FreqTableToFile_lines_plain.
Qed.

End decode_after_encode.


(** * Further properties of mark.go *)

(** ** Prefix keys *)

(** X1: two prefixes of the same length whose words hold no space have
    the same key only if they are the same prefix, so different windows
    never share an entry of the table. *)
Theorem Prefix_String_inj (p q : Prefix) :
  length p = length q →
  Forall (λ t, SP ∉ bytes t) p → Forall (λ t, SP ∉ bytes t) q →
  Prefix_String p = Prefix_String q → p = q.
Proof.
  intros Hlen Hp Hq Hkey. destruct p as [|x p], q as [|y q]; try done.
  unfold Prefix_String in Hkey. change " " with (String SP "") in Hkey.
  rewrite <- (Split_Join SP (x :: p)), <- (Split_Join SP (y :: q)) by done.
  by rewrite Hkey.
Qed.

Lemma Prefix_String_inj_witness :
  length ["I"; "am"] = length ["I"; "am"] ∧
  (Prefix_String ["I"; "am"] = Prefix_String ["I"; "am"] → ["I"; "am"] = ["I"; "am"]).
Proof.
  split; [reflexivity|].
  apply (Prefix_String_inj ["I"; "am"] ["I"; "am"] eq_refl);
    repeat constructor; by apply (bool_decide_unpack _).
Defined.

(** ** The expander *)


Section expander.
Context `{MapRange}.

Lemma lookup_ChainFromFreqTable (c : Chain) key :
  chain (ChainFromFreqTable c) !! key
    = match freqTable c !! key with
      | Some val => Some (expandSuffixes val)
      | None => chain c !! key
      end.
Proof.
  destruct (freqTable c !! key) as [val|] eqn:Hkey.
  - by apply ChainFromFreqTable_lookup.
  - unfold ChainFromFreqTable. cbn [chain].
    apply (foldl_insert_notin expandSuffixes).
    rewrite elem_of_rangeMap_keys, Hkey. by intros [? ?].
Qed.

End expander.

(** ** The walk of the generator *)

Section walk_members.
Variable src : nat → nat → nat.

Lemma generateLoop_members c todo : ∀ i (p : Prefix) words res,
  generateLoop src c todo i p words = Ok res →
  ∃ out, res = words ++ out ∧
    ∀ j w, out !! j = Some w →
      w ∈ default [] (chain c !! Prefix_String (drop j (p ++ take j out))).
Proof.
  induction todo as [|todo IH]; intros i p words res Hrun.
  - injection Hrun as <-. exists []. by rewrite app_nil_r.
  - cbn [generateLoop] in Hrun. cbv zeta in Hrun.
    destruct (length (default [] (chain c !! Prefix_String p)) =? 0)%nat.
    { injection Hrun as <-. exists []. by rewrite app_nil_r. }
    destruct (default [] (chain c !! Prefix_String p) !! _) as [next|] eqn:Hnext;
      [|done].
    destruct p as [|x p]; [done|]. cbn [Prefix_Shift] in Hrun.
    rewrite bind_Ok in Hrun.
    destruct (IH _ _ _ _ Hrun) as (out & -> & Hout).
    exists (next :: out). rewrite <- app_assoc. split; [done|].
    intros [|j] w Hw.
    + injection Hw as <-. cbn [take drop]. rewrite app_nil_r.
      by eapply list_elem_of_lookup_2.
    + cbn [take drop app]. specialize (Hout j w Hw).
      by rewrite <- app_assoc in Hout.
Qed.

(** X3: every word that [Generate] emits is one of the suffixes that
    the chain lists for the window in force when it was drawn; nothing
    is emitted that the chain does not allow at that place. *)
Theorem Generate_follows_chain (c : Chain) (n : Z) (words : list string) :
  GenerateWords src c n = Ok words →
  ∀ j w, words !! j = Some w →
    w ∈ default [] (chain c !! Prefix_String (windowAfter c (take j words))).
Proof.
  unfold GenerateWords, startPrefix. destruct (prefixLen c <? 0); [done|].
  rewrite bind_Ok. intros Hrun j w Hw.
  destruct (generateLoop_members _ _ _ _ _ _ Hrun) as (out & Hres & Hout).
  cbn [app] in Hres. subst out. unfold windowAfter.
  rewrite length_take_le by (apply Nat.lt_le_incl; by eapply lookup_lt_Some).
  by apply Hout.
Qed.
End walk_members.

Lemma Generate_follows_chain_witness :
  let c := mkChain {[ startWord := ["a"]; "a" := ["b"] ]} 1 ∅ in
  GenerateWords (λ _ _, 0%nat) c 2 = Ok ["a"; "b"] ∧
  "b" ∈ default [] (chain c !! Prefix_String (windowAfter c (take 1 ["a"; "b"]))).
Proof.
  intros c. split; [reflexivity|].
  apply (Generate_follows_chain (λ _ _, 0%nat) c 2 ["a"; "b"] eq_refl 1%nat "b").
  reflexivity.
Defined.

(** ** What the reading loop records *)

Lemma length_filter_fmap {A B} (f : A → B) (P : B → Prop)
    `{!∀ x, Decision (P x)} (l : list A) :
  length (filter P (f <$> l)) = length (filter (λ x, P (f x)) l).
Proof.
  induction l as [|x l IH]; [done|]. rewrite fmap_cons, !filter_cons.
  destruct (decide (P (f x))); simpl; by rewrite IH.
Qed.

Lemma length_filter_iff {A} (P Q : A → Prop)
    `{!∀ x, Decision (P x), !∀ x, Decision (Q x)} (l : list A) :
  (∀ x, P x ↔ Q x) → length (filter P l) = length (filter Q l).
Proof. intros HPQ. by rewrite (list_filter_iff P Q). Qed.

Lemma windowAt_0 (p : Prefix) words : windowAt p words 0 = p.
Proof. unfold windowAt. by rewrite drop_0, take_app_length. Qed.

Lemma windowAt_S (p : Prefix) w words i :
  p ≠ [] →
  windowAt p (w :: words) (S i) = windowAt (drop 1 (p ++ [w])) words i.
Proof.
  intros Hp. destruct p as [|x p]; [done|]. unfold windowAt.
  change ((x :: p) ++ w :: words) with (x :: (p ++ w :: words)).
  change ((x :: p) ++ [w]) with (x :: (p ++ [w])).
  rewrite !skipn_cons, drop_0, <- app_assoc. cbn [app].
  f_equal. rewrite length_app. simpl. lia.
Qed.

Lemma positionsOf_cons (p : Prefix) w words key s :
  p ≠ [] →
  length (positionsOf p (w :: words) key s)
    = ((if decide (key = Prefix_String p ∧ s = w) then 1 else 0)
       + length (positionsOf (drop 1 (p ++ [w])) words key s))%nat.
Proof.
  intros Hp.
  assert (length (filter (λ i, Prefix_String (windowAt p (w :: words) i) = key
                                ∧ (w :: words) !! i = Some s)
                         (seq 1 (length words)))
          = length (positionsOf (drop 1 (p ++ [w])) words key s)) as Hrest.
  { rewrite <- fmap_S_seq, length_filter_fmap. unfold positionsOf.
    apply length_filter_iff. intros i. by rewrite windowAt_S. }
  unfold positionsOf at 1. cbn [length seq].
  rewrite filter_cons, windowAt_0.
  destruct (decide (Prefix_String p = key ∧ (w :: words) !! 0%nat = Some s))
    as [[Hk Hs]|Hno].
  - injection Hs as ->. rewrite decide_True by done.
    cbn [length]. by rewrite Hrest.
  - rewrite decide_False; [by rewrite Hrest|]. intros [-> ->]. by apply Hno.
Qed.

Lemma countOf_insert ft key val key' s :
  countOf (<[key := val]> ft) key' s
    = if decide (key' = key) then default 0 (val !! s) else countOf ft key' s.
Proof.
  unfold countOf. destruct (decide (key' = key)) as [->|Hne].
  - by rewrite lookup_insert_eq.
  - by rewrite lookup_insert_ne.
Qed.

Lemma countWord_effect c (p : Prefix) s c' p' n :
  countWord (c, p) s = Ok (c', p') →
  0 ≤ n < intMax → counted n (freqTable c) →
  p ≠ [] ∧ p' = drop 1 (p ++ [s]) ∧
  (∀ key' s',
     countOf (freqTable c') key' s'
       = countOf (freqTable c) key' s'
         + Z.of_nat (if decide (key' = Prefix_String p ∧ s' = s) then 1 else 0)) ∧
  (∀ key',
     default [] (chain c' !! key')
       = default [] (chain c !! key')
         ++ (if decide (key' = Prefix_String p) then [s] else [])).
Proof.
  intros Hstep Hn [_ Hbound]. unfold countWord in Hstep.
  destruct p as [|w p]; [done|]. cbn [Prefix_Shift] in Hstep.
  rewrite bind_Ok in Hstep. injection Hstep as <- <-.
  cbn [freqTable chain]. set (key := Prefix_String (w :: p)).
  split; [done|]. split; [done|]. split.
  - intros key' s'.
    destruct (freqTable c !! key) as [val|] eqn:Hkey.
    + assert (0 ≤ default 0 (val !! s) ≤ n) as Hold.
      { destruct (val !! s) as [v0|] eqn:Hs; simpl; [|lia].
        pose proof (Hbound _ _ _ _ Hkey Hs). lia. }
      rewrite wrapInt_id by (unfold isInt, intMin, intMax in *; lia).
      rewrite countOf_insert. destruct (decide (key' = key)) as [->|Hne].
      * unfold countOf. rewrite Hkey. cbn [mbind option_bind].
        destruct (decide (s' = s)) as [->|Hne'].
        -- rewrite lookup_insert_eq, decide_True by done. simpl. lia.
        -- rewrite lookup_insert_ne, decide_False by (by intros [_ ?] || done).
           simpl. lia.
      * rewrite decide_False by (by intros [? _]). simpl. lia.
    + rewrite countOf_insert. destruct (decide (key' = key)) as [->|Hne].
      * unfold countOf. rewrite Hkey. cbn [mbind option_bind default].
        destruct (decide (s' = s)) as [->|Hne'].
        -- rewrite lookup_singleton_eq, decide_True by done. simpl. lia.
        -- rewrite lookup_singleton_ne, decide_False by (by intros [_ ?] || done).
           simpl. lia.
      * rewrite decide_False by (by intros [? _]). simpl. lia.
  - intros key'. destruct (decide (key' = key)) as [->|Hne].
    + by rewrite lookup_insert_eq.
    + rewrite lookup_insert_ne by done. by rewrite app_nil_r.
Qed.

Lemma occurrences_snoc s l x :
  occurrences s (l ++ [x]) = (occurrences s l + if decide (x = s) then 1 else 0)%nat.
Proof.
  rewrite occurrences_app. f_equal. unfold occurrences.
  rewrite filter_cons. by destruct (decide (x = s)).
Qed.

Lemma countWords_effect words : ∀ c (p : Prefix) c' p' n,
  countWords (c, p) words = Ok (c', p') →
  0 ≤ n → n + Z.of_nat (length words) ≤ intMax →
  counted n (freqTable c) →
  (∀ key s,
     countOf (freqTable c') key s
       = countOf (freqTable c) key s
         + Z.of_nat (length (positionsOf p words key s))) ∧
  (chainMatchesTable c → chainMatchesTable c').
Proof.
  induction words as [|w words IH]; intros c p c' p' n Hrun Hn Hmax Hc.
  - injection Hrun as <- <-. split; [|done]. intros key s.
    unfold positionsOf. simpl. lia.
  - cbn [countWords] in Hrun. cbn [length] in Hmax.
    destruct (countWord (c, p) w) as [[c1 p1]|] eqn:Hstep; [|done].
    rewrite bind_Ok in Hrun.
    destruct (countWord_effect c p w c1 p1 n Hstep) as (Hp & -> & Hcnt & Hch);
      [lia|done|].
    pose proof (countWord_counted c p w c1 _ n Hstep ltac:(lia) Hc) as Hc1.
    destruct (IH c1 _ c' p' (n + 1) Hrun) as [IHcnt IHch]; [lia|lia|done|].
    split.
    + intros key s. rewrite IHcnt, Hcnt, positionsOf_cons by done.
      rewrite Nat2Z.inj_add. lia.
    + intros Hmatch. apply IHch. intros key s.
      rewrite Hch, Hcnt, <- Hmatch.
      destruct (decide (key = Prefix_String p)) as [->|Hne].
      * rewrite occurrences_snoc, Nat2Z.inj_add. f_equal.
        destruct (decide (w = s)) as [->|Hws].
        -- by rewrite decide_True.
        -- rewrite decide_False; [done|]. by intros [_ ->].
      * rewrite app_nil_r, decide_False by (by intros [? _]). simpl. lia.
Qed.

Lemma reading_effect c words c' n :
  (p ← startPrefix c; cp ← countWords (c, p) words; Ok cp.1) = Ok c' →
  0 ≤ n → n + Z.of_nat (length words) ≤ intMax →
  counted n (freqTable c) →
  counted (n + Z.of_nat (length words)) (freqTable c') ∧
  prefixLen c' = prefixLen c ∧
  (∀ key s,
     countOf (freqTable c') key s
       = countOf (freqTable c) key s
         + Z.of_nat (length (positionsOf (startWindow (prefixLen c)) words key s))) ∧
  (chainMatchesTable c → chainMatchesTable c').
Proof.
  unfold startPrefix. destruct (prefixLen c <? 0); [done|]. rewrite bind_Ok.
  destruct (countWords _ words) as [[c1 p1]|] eqn:Hrun; [|done].
  rewrite bind_Ok. intros [= <-] Hn Hmax Hc.
  split; [by eapply countWords_counted|].
  split.
  - clear Hc Hmax. revert Hrun. generalize (replicate (Z.to_nat (prefixLen c)) startWord).
    revert c. induction words as [|w words IH]; intros c p Hrun.
    + by injection Hrun as <- _.
    + cbn [countWords] in Hrun.
      destruct (countWord (c, p) w) as [[c2 p2]|] eqn:Hstep; [|done].
      rewrite bind_Ok in Hrun. rewrite (IH _ _ Hrun).
      unfold countWord in Hstep. destruct p; [done|].
      cbn [Prefix_Shift] in Hstep. rewrite bind_Ok in Hstep.
      by injection Hstep as <- _.
  - by eapply countWords_effect.
Qed.

Lemma chainMatchesTable_new k : chainMatchesTable (NewChain k).
Proof. intros key s. reflexivity. Qed.

(** X4: after [Build] (or [FileToFreqTable]) on an empty chain, the
    count recorded for suffix [s] under key [key] is the number of
    positions of the stream at which [s] is read while the window, which
    starts as [prefixLen] start words and then holds the last
    [prefixLen] words read, has the key [key].  The stream is as long as
    an int can count. *)
Theorem reading_counts_positions
    (k : Z) (words : list string) (data : string) (c : Chain) :
  (Build (NewChain k) words = Ok c →
   Z.of_nat (length words) ≤ intMax →
   ∀ key s, countOf (freqTable c) key s
            = Z.of_nat (length (positionsOf (startWindow k) words key s))) ∧
  (FileToFreqTable (NewChain k) data = Ok c →
   Z.of_nat (length (ScanWords data)) ≤ intMax →
   ∀ key s, countOf (freqTable c) key s
            = Z.of_nat (length (positionsOf (startWindow k) (ScanWords data) key s))).
Proof.
  split; intros Hrun Hlen key s.
  - destruct (reading_effect _ _ _ 0 Hrun) as (_ & _ & Hcnt & _);
      [lia|lia|apply counted_empty|].
    by rewrite Hcnt.
  - destruct (reading_effect _ _ _ 0 Hrun) as (_ & _ & Hcnt & _);
      [lia|lia|apply counted_empty|].
    by rewrite Hcnt.
Qed.

Lemma reading_counts_positions_witness :
  ∃ c, Build (NewChain 1) ["a"; "b"; "a"; "b"] = Ok c ∧
       countOf (freqTable c) "a" "b"
         = Z.of_nat (length (positionsOf (startWindow 1) ["a"; "b"; "a"; "b"] "a" "b")).
Proof.
  destruct (Build (NewChain 1) ["a"; "b"; "a"; "b"]) as [c|p] eqn:Hrun;
    [|vm_compute in Hrun; discriminate].
  exists c. split; [reflexivity|].
  apply (proj1 (reading_counts_positions 1 ["a"; "b"; "a"; "b"] "" c) Hrun).
  vm_compute. discriminate.
Defined.

(** ** The chain that [Build] keeps and the chain that is expanded *)

Lemma occurrences_count_occ s (l : list string) :
  occurrences s l = count_occ String.eq_dec l s.
Proof.
  unfold occurrences. induction l as [|x l IH]; [done|].
  rewrite filter_cons. cbn [count_occ].
  destruct (decide (x = s)) as [->|Hne].
  - destruct (String.eq_dec s s); [|done]. simpl. by rewrite IH.
  - destruct (String.eq_dec x s); [done|]. exact IH.
Qed.

Lemma occurrences_Permutation (l1 l2 : list string) :
  (∀ s, occurrences s l1 = occurrences s l2) → l1 ≡ₚ l2.
Proof.
  intros Hocc. apply (Permutation.Permutation_count_occ String.eq_dec).
  intros s. by rewrite <- !occurrences_count_occ.
Qed.

Section built_chain.
Context `{MapRange}.

Lemma expand_matches (c : Chain) n :
  counted n (freqTable c) → chainMatchesTable c →
  ∀ key, default [] (chain (ChainFromFreqTable c) !! key)
         ≡ₚ default [] (chain c !! key).
Proof.
  intros [_ Hbound] Hmatch key. rewrite lookup_ChainFromFreqTable.
  destruct (freqTable c !! key) as [val|] eqn:Hkey; [|done].
  change (default [] (Some (expandSuffixes val))) with (expandSuffixes val).
  apply occurrences_Permutation. intros s. apply Nat2Z.inj.
  rewrite Hmatch. unfold countOf. rewrite Hkey.
  change (default 0 (Some val ≫= λ val0, val0 !! s)) with (default 0 (val !! s)).
  rewrite expandSuffixes_alt, expand_occurrences, list_to_map_rangeMap;
    [done|apply rangeMap_NoDup|].
  apply rangeMap_nonneg. intros s' v Hs'.
  pose proof (Hbound _ _ _ _ Hkey Hs'). lia.
Qed.

(** X5: the chain that [Build] (or [FileToFreqTable]) appends to while
    it counts agrees with the table: under every key each suffix is
    listed as often as it is counted.  So expanding the table afterwards
    gives, under every key, a rearrangement of the list already built. *)
Theorem built_chain_matches_table
    (k : Z) (words : list string) (data : string) (c : Chain) :
  (Build (NewChain k) words = Ok c ∧ Z.of_nat (length words) ≤ intMax) ∨
  (FileToFreqTable (NewChain k) data = Ok c ∧
   Z.of_nat (length (ScanWords data)) ≤ intMax) →
  chainMatchesTable c ∧
  ∀ key, default [] (chain (ChainFromFreqTable c) !! key)
         ≡ₚ default [] (chain c !! key).
Proof.
  intros [[Hrun Hlen]|[Hrun Hlen]].
  - destruct (reading_effect _ _ _ 0 Hrun) as (Hc & _ & _ & Hm);
      [lia|lia|apply counted_empty|].
    specialize (Hm (chainMatchesTable_new k)). split; [done|].
    by eapply expand_matches.
  - destruct (reading_effect _ _ _ 0 Hrun) as (Hc & _ & _ & Hm);
      [lia|lia|apply counted_empty|].
    specialize (Hm (chainMatchesTable_new k)). split; [done|].
    by eapply expand_matches.
Qed.
End built_chain.

Lemma built_chain_matches_table_witness :
  ∃ c, FileToFreqTable (NewChain 2) "I am not a number I am a free man" = Ok c ∧
       chainMatchesTable c ∧
       ∀ key, default [] (chain (@ChainFromFreqTable canonicalRange c) !! key)
              ≡ₚ default [] (chain c !! key).
Proof.
  destruct (FileToFreqTable (NewChain 2) "I am not a number I am a free man")
    as [c|p] eqn:Hrun; [|vm_compute in Hrun; discriminate].
  exists c. split; [reflexivity|].
  apply (@built_chain_matches_table canonicalRange 2 []
           "I am not a number I am a free man" c).
  right. split; [exact Hrun|]. vm_compute. discriminate.
Defined.

(** ** Several input files *)

Lemma wordCount_nonneg d files : 0 ≤ wordCount d files.
Proof.
  unfold wordCount. induction files as [|f files IH]; [done|].
  rewrite fmap_cons, sumZ_cons. lia.
Qed.

Lemma wordCount_cons d f files :
  wordCount d (f :: files)
    = Z.of_nat (length (wordsOfFile d f)) + wordCount d files.
Proof. reflexivity. Qed.

Lemma readFiles_effect d files : ∀ c c' n,
  readFiles d c files = Ok c' →
  0 ≤ n → n + wordCount d files ≤ intMax →
  counted n (freqTable c) →
  counted (n + wordCount d files) (freqTable c') ∧
  prefixLen c' = prefixLen c ∧
  (∀ key s,
     countOf (freqTable c') key s
       = countOf (freqTable c) key s
         + sumZ ((λ f, Z.of_nat (length (positionsOf (startWindow (prefixLen c))
                                           (wordsOfFile d f) key s)))
                   <$> files)) ∧
  (chainMatchesTable c → chainMatchesTable c').
Proof.
  induction files as [|f files IH]; intros c c' n Hrun Hn Hmax Hc.
  - injection Hrun as <-. unfold wordCount. simpl. rewrite Z.add_0_r.
    split; [done|]. split; [done|]. split; [|done]. intros key s. lia.
  - cbn [readFiles] in Hrun. unfold FileToFreqTable_file in Hrun.
    rewrite wordCount_cons in Hmax |- *.
    pose proof (wordCount_nonneg d files) as Hrest.
    destruct (content d !! f) as [data|] eqn:Hf; [|done].
    assert (wordsOfFile d f = ScanWords data) as Hwords
      by (unfold wordsOfFile; by rewrite Hf).
    rewrite Hwords in Hmax |- *.
    destruct (FileToFreqTable c data) as [c1|] eqn:Hfile; [|done].
    rewrite bind_Ok in Hrun.
    destruct (reading_effect c (ScanWords data) c1 n Hfile)
      as (Hc1 & Hk1 & Hcnt1 & Hm1); [lia|lia|done|].
    destruct (IH c1 c' (n + Z.of_nat (length (ScanWords data))) Hrun)
      as (Hc' & Hk' & Hcnt' & Hm'); [lia|lia|done|].
    split; [by rewrite Z.add_assoc|]. split; [congruence|]. split.
    + intros key s. rewrite Hcnt', Hcnt1, Hk1, fmap_cons, sumZ_cons, Hwords.
      lia.
    + auto.
Qed.

(** X6: when [main] reads several input files into a new chain, the
    counts add up over the files and the window starts afresh at every
    file: the count recorded for [s] under [key] is the sum, over the
    files, of the positions at which the file by itself would count [s]
    under [key]; all counts together are the number of words of all
    files; and the chain lists agree with the counts. *)
Theorem readFiles_counts (d : Disk) (k : Z) (filenames : list string) (c : Chain) :
  readFiles d (NewChain k) filenames = Ok c →
  wordCount d filenames ≤ intMax →
  tableTotal (freqTable c) = wordCount d filenames ∧
  chainMatchesTable c ∧
  ∀ key s,
    countOf (freqTable c) key s
      = sumZ ((λ f, Z.of_nat (length (positionsOf (startWindow k)
                                        (wordsOfFile d f) key s)))
                <$> filenames).
Proof.
  intros Hrun Hmax.
  destruct (readFiles_effect d filenames (NewChain k) c 0 Hrun)
    as ([Htot _] & _ & Hcnt & Hm); [lia|lia|apply counted_empty|].
  split; [by rewrite Htot|]. split; [apply Hm, chainMatchesTable_new|].
  intros key s. by rewrite Hcnt.
Qed.

Lemma readFiles_counts_witness :
  let d := mkDisk {[ "one" := "a b"; "two" := "a b a" ]} ∅ in
  ∃ c, readFiles d (NewChain 1) ["one"; "two"] = Ok c ∧
       tableTotal (freqTable c) = wordCount d ["one"; "two"] ∧
       chainMatchesTable c ∧
       ∀ key s,
         countOf (freqTable c) key s
           = sumZ ((λ f, Z.of_nat (length (positionsOf (startWindow 1)
                                             (wordsOfFile d f) key s)))
                     <$> ["one"; "two"]).
Proof.
  intros d.
  destruct (readFiles d (NewChain 1) ["one"; "two"]) as [c|p] eqn:Hrun;
    [|vm_compute in Hrun; discriminate].
  exists c. split; [reflexivity|].
  apply (readFiles_counts d 1 ["one"; "two"] c Hrun).
  vm_compute. discriminate.
Defined.

Lemma FileToFreqTable_returns c data :
  1 ≤ prefixLen c →
  ∃ c', FileToFreqTable c data = Ok c' ∧ prefixLen c' = prefixLen c.
Proof.
  intros Hk. unfold FileToFreqTable. rewrite startPrefix_ok by lia. bind_steps.
  destruct (countWords_ok (ScanWords data) c _ (startPrefix_nonempty c Hk))
    as (c' & p' & -> & _ & Hk').
  by exists c'.
Qed.


(** X7: in the loop over the input files, with a prefix length of 1 or
    more, the first file that cannot be opened stops the program with
    the panic of [FileToFreqTable]; the files before it cause no
    panic. *)
Theorem readFiles_missing_file
    (d : Disk) (k : Z) (before after : list string) (filename : string) :
  1 ≤ k →
  Forall (λ f, is_Some (content d !! f)) before →
  content d !! filename = None →
  readFiles d (NewChain k) (before ++ filename :: after)
    = Panicked (PanicMsg "Could not open input file.").
Proof.
  intros Hk Hbefore Hmiss.
  assert (∀ c, builtFrom k c →
            readFiles d c (before ++ filename :: after)
              = Panicked (PanicMsg "Could not open input file.")) as Hgen.
  { induction before as [|f before IH]; intros c Hb.
    - cbn [app readFiles]. unfold FileToFreqTable_file. by rewrite Hmiss.
    - apply Forall_cons in Hbefore as [[data Hf] Hbefore].
      destruct (builtFrom_wf k c Hb) as [_ Hkc].
      destruct (FileToFreqTable_returns c data) as (c1 & Hrun & _); [lia|].
      cbn [app readFiles]. unfold FileToFreqTable_file.
      rewrite Hf, Hrun. bind_steps. apply IH; [done|]. by econstructor. }
  apply Hgen. constructor.
Qed.

Lemma readFiles_missing_file_witness :
  readFiles (mkDisk {[ "one" := "a b" ]} ∅) (NewChain 1) (["one"] ++ "two" :: [])
    = Panicked (PanicMsg "Could not open input file.").
Proof.
  apply (readFiles_missing_file (mkDisk {[ "one" := "a b" ]} ∅) 1 ["one"] [] "two").
  - lia.
  - repeat constructor. by eexists.
  - reflexivity.
Defined.

(** ** More on decoding *)

(** X8: when decoding reaches a line of two fields or more while the
    prefix length in force is larger than the number of fields, the
    program stops with an index out of range while it collects the
    prefix; when the prefix length in force is negative, it panics as
    well (in the conversion of the first field, or out of range). *)
Theorem data_line_shorter_than_prefix
    (data : string) (pre rest : list string) (line : string) (c : Chain) :
  ScanLines data = pre ++ line :: rest →
  readLines (NewChain 0) pre = Ok c →
  (1 < length (Split line SP))%nat →
  (Z.of_nat (length (Split line SP)) < prefixLen c →
     FreqTableFromFreqFile data = Panicked IndexOutOfRange) ∧
  (prefixLen c < 0 → panics (FreqTableFromFreqFile data)).
Proof.
  intros Hdata Hpre Hlen. unfold FreqTableFromFreqFile.
  rewrite Hdata, (readLines_reached _ _ c) by done.
  rewrite readLine_data by done. unfold readDataLine. split.
  - intros Hshort.
    by destruct (Z.ltb_spec (Z.of_nat (length (Split line SP))) (prefixLen c));
      [|lia].
  - intros Hneg. apply panics_bind.
    destruct (Z.ltb_spec (Z.of_nat (length (Split line SP))) (prefixLen c));
      [by eexists|].
    destruct (Z.ltb_spec (prefixLen c) 0); [|lia].
    destruct (prefixLen c =? -1); [|by eexists].
    destruct (Atoi _); by eexists.
Qed.

Lemma data_line_shorter_than_prefix_witness :
  let short := "3" +:+ String LF ("a b" +:+ String LF "") in
  let negative := "-1" +:+ String LF ("7 b" +:+ String LF "") in
  FreqTableFromFreqFile short = Panicked IndexOutOfRange ∧
  panics (FreqTableFromFreqFile negative).
Proof.
  intros short negative.
  assert (1 < length (Split "a b" SP))%nat as Hlen1 by (vm_compute; lia).
  assert (1 < length (Split "7 b" SP))%nat as Hlen2 by (vm_compute; lia).
  split.
  - apply (proj1 (data_line_shorter_than_prefix short ["3"] [] "a b" (NewChain 3)
                    eq_refl eq_refl Hlen1)).
    vm_compute. reflexivity.
  - apply (proj2 (data_line_shorter_than_prefix negative ["-1"] [] "7 b"
                    (NewChain (-1)) eq_refl eq_refl Hlen2)).
    simpl. lia.
Defined.

Lemma readDataLine_key_replaced c c1 items1 items2 :
  readDataLine c items1 = Ok c1 →
  take (Z.to_nat (prefixLen c)) items1 = take (Z.to_nat (prefixLen c)) items2 →
  readDataLine c1 items2 = readDataLine c items2.
Proof.
  unfold readDataLine at 1.
  destruct (Z.of_nat (length items1) <? prefixLen c); [done|].
  destruct (Z.ltb_spec (prefixLen c) 0) as [Hneg|Hk].
  { destruct (prefixLen c =? -1); [|done]. by destruct (Atoi _). }
  destruct (readPairs _ ∅) as [val1|]; [|done]. rewrite bind_Ok.
  intros [= <-] Htake. unfold readDataLine. cbn [prefixLen chain freqTable].
  destruct (Z.of_nat (length items2) <? prefixLen c); [done|].
  destruct (prefixLen c <? 0); [done|].
  destruct (readPairs _ ∅) as [val2|]; [|done]. rewrite !bind_Ok.
  by rewrite Htake, insert_insert_eq.
Qed.

(** X9: a data line replaces what an earlier data line recorded for the
    same prefix; the two are not merged.  When two lines that follow one
    another start with the same [prefixLen] fields and the first one is
    read without panic, the result of decoding is the same as without
    the first line. *)
Theorem later_line_replaces_earlier
    (pre rest : list string) (line1 line2 : string) (c c1 : Chain) :
  readLines (NewChain 0) pre = Ok c →
  (1 < length (Split line1 SP))%nat → (1 < length (Split line2 SP))%nat →
  take (Z.to_nat (prefixLen c)) (Split line1 SP)
    = take (Z.to_nat (prefixLen c)) (Split line2 SP) →
  readLine c line1 = Ok c1 →
  readLines (NewChain 0) (pre ++ line1 :: line2 :: rest)
    = readLines (NewChain 0) (pre ++ line2 :: rest).
Proof.
  intros Hpre Hlen1 Hlen2 Htake Hfirst.
  rewrite !(readLines_reached _ _ c) by done.
  rewrite Hfirst. bind_steps. cbn [readLines].
  rewrite readLine_data in Hfirst by done.
  rewrite !(readLine_data _ line2) by done.
  by rewrite (readDataLine_key_replaced c c1 _ _ Hfirst Htake).
Qed.

Lemma later_line_replaces_earlier_witness :
  readLines (NewChain 0) (["1"] ++ "a b 1 c 2" :: "a d 5" :: [])
    = readLines (NewChain 0) (["1"] ++ "a d 5" :: []) ∧
  readLines (NewChain 0) (["1"] ++ "a d 5" :: [])
    = Ok (mkChain ∅ 1 {[ "a" := {[ "d" := 5 ]} ]}).
Proof.
  split; [|reflexivity].
  assert (1 < length (Split "a b 1 c 2" SP))%nat as Hlen1 by (vm_compute; lia).
  assert (1 < length (Split "a d 5" SP))%nat as Hlen2 by (vm_compute; lia).
  apply (later_line_replaces_earlier ["1"] [] "a b 1 c 2" "a d 5" (NewChain 1)
           (mkChain ∅ 1 {[ "a" := {[ "b" := 1; "c" := 2 ]} ]})
           eq_refl Hlen1 Hlen2);
    reflexivity.
Defined.

(** ** Lines in any order *)

Section any_order.
Context `{MapRange}.




End any_order.


(** ** The order of the data lines *)

(** X11: the order in which [FreqTableToFile] writes the data lines
    does not depend on the order in which the maps are visited: the
    sorted keys are the same for any two orders.  If the two orders
    agree on the suffix maps, the whole files are the same. *)
Theorem data_lines_order_is_fixed (R1 R2 : MapRange) (c : Chain) :
  @sortedKeys R1 c = @sortedKeys R2 c ∧
  ((∀ val : gmap string Z, @rangeMap R1 Z val = @rangeMap R2 Z val) →
   @FreqTableToFile R1 c = @FreqTableToFile R2 c).
Proof.
  assert (@sortedKeys R1 c = @sortedKeys R2 c) as Hkeys.
  { apply (StronglySorted_unique String.le).
    - apply (StronglySorted_merge_sort String.le).
    - apply (StronglySorted_merge_sort String.le).
    - rewrite (@sortedKeys_perm R1), (@sortedKeys_perm R2).
      by rewrite !rangeMap_perm. }
  split; [done|]. intros Hagree.
  unfold FreqTableToFile, FreqTableToFile_lines. rewrite Hkeys.
  do 2 f_equal. apply list_fmap_ext. intros i key _.
  unfold tableLine, sufCount. by rewrite Hagree.
Qed.

Lemma data_lines_order_is_fixed_witness :
  let c := mkChain ∅ 1 {[ "b" := {[ "a" := 1 ]}; "a" := {[ "b" := 1 ]} ]} in
  @sortedKeys canonicalRange c = @sortedKeys reversedRange c ∧
  @FreqTableToFile canonicalRange c = @FreqTableToFile canonicalRange c.
Proof.
  intros c. split.
  - exact (proj1 (data_lines_order_is_fixed canonicalRange reversedRange c)).
  - apply (proj2 (data_lines_order_is_fixed canonicalRange canonicalRange c)).
    reflexivity.
Defined.

(** ** From the files to the generated text *)


Section pipeline.
Context `{MapRange}.
Variable src : nat → nat → nat.

Lemma rangeMap_empty {A} : rangeMap (∅ : gmap string A) = [].
Proof.
  apply Permutation_nil_r. by rewrite rangeMap_perm, map_to_list_empty.
Qed.

Lemma Generate_nothing_recorded (c : Chain) (n : Z) :
  0 ≤ prefixLen c →
  default [] (chain c !! Prefix_String (startWindow (prefixLen c))) = [] →
  Generate src c n = Ok "".
Proof.
  intros Hk Hnone. unfold Generate, GenerateWords.
  rewrite startPrefix_ok by done. bind_steps.
  destruct (Z.to_nat n) as [|todo]; [done|].
  cbn [generateLoop]. cbv zeta. unfold startWindow in Hnone.
  by rewrite Hnone.
Qed.

(** X12: an input without a word gives an empty model all the way:
    [FileToFreqTable] leaves the new chain as it is, the encoded file
    decodes to it, and [Generate] on its expansion returns the empty
    text for every [n] (also with a prefix length of 0). *)
Theorem empty_input_generates_nothing (k n : Z) (data : string) :
  0 ≤ k ≤ intMax → ScanWords data = [] →
  FileToFreqTable (NewChain k) data = Ok (NewChain k) ∧
  FreqTableFromFreqFile (FreqTableToFile (NewChain k)) = Ok (NewChain k) ∧
  Generate src (ChainFromFreqTable (NewChain k)) n = Ok "".
Proof.
  intros Hk Hempty. split; [|split].
  - unfold FileToFreqTable. rewrite startPrefix_ok by (simpl; lia).
    by rewrite Hempty.
  - rewrite FreqTableToFile_unlines. unfold FreqTableToFile_lines, sortedKeys.
    cbn [freqTable NewChain prefixLen]. rewrite rangeMap_empty.
    change (tableLine _ <$> sortStrings []) with (@nil string).
    unfold FreqTableFromFreqFile. rewrite ScanLines_unlines.
    + cbn [readLines]. rewrite readLine_prefixLen_line; [done|].
      unfold isInt, intMin. lia.
    + repeat constructor; apply noSpace_not_elem; done || apply noSpace_Itoa.
  - apply Generate_nothing_recorded; [simpl; lia|].
    unfold ChainFromFreqTable. cbn [freqTable NewChain chain].
    by rewrite rangeMap_empty.
Qed.


(** X14: a table file that decodes to a negative prefix length makes
    the generate mode panic whatever number of words is asked for, 0
    included: [Generate] cannot make its start prefix. *)
Theorem main_generate_negative_prefixLen
    (d : Disk) (prog freqFile narg data : string) (n : Z) (c : Chain) :
  content d !! freqFile = Some data →
  FreqTableFromFreqFile data = Ok c → prefixLen c < 0 →
  Atoi narg = Some n → 0 ≤ n →
  main src [prog; "generate"; freqFile; narg] d
    = Panicked MakesliceLenOutOfRange.
Proof.
  intros Hfile Hdec Hneg Hnarg Hn. unfold main.
  cbn [length Nat.ltb Nat.leb]. cbv zeta.
  cbn [lookup list_lookup default from_option id].
  rewrite decide_True by done. rewrite Hnarg.
  destruct (Z.ltb_spec n 0) as [|_]; [lia|].
  unfold FreqTableFromFreqFile_file. rewrite Hfile, Hdec. bind_steps.
  unfold Generate, GenerateWords, startPrefix.
  cbn [prefixLen ChainFromFreqTable].
  by destruct (Z.ltb_spec (prefixLen c) 0); [|lia].
Qed.
End pipeline.

Lemma empty_input_generates_nothing_witness :
  0 ≤ 2 ≤ intMax ∧ ScanWords "  " = [] ∧
  FileToFreqTable (NewChain 2) "  " = Ok (NewChain 2) ∧
  FreqTableFromFreqFile (@FreqTableToFile canonicalRange (NewChain 2))
    = Ok (NewChain 2) ∧
  Generate (λ _ _, 0%nat) (@ChainFromFreqTable canonicalRange (NewChain 2)) 5
    = Ok "".
Proof.
  assert (0 ≤ 2 ≤ intMax) as Hk by (unfold intMax; lia).
  split; [exact Hk|]. split; [reflexivity|].
  exact (@empty_input_generates_nothing canonicalRange (λ _ _, 0%nat) 2 5 "  "
           Hk eq_refl).
Defined.


Lemma main_generate_negative_prefixLen_witness :
  let d := mkDisk {[ "table" := "-1" +:+ String LF "" ]} ∅ in
  @main canonicalRange (λ _ _, 0%nat) ["mark"; "generate"; "table"; "0"] d
    = Panicked MakesliceLenOutOfRange.
Proof.
  intros d.
  apply (@main_generate_negative_prefixLen canonicalRange (λ _ _, 0%nat) d
           "mark" "table" "0" ("-1" +:+ String LF "") 0 (NewChain (-1)));
    [reflexivity | reflexivity | simpl; lia | reflexivity | lia].
Defined.

(** ** The chain in generate mode and the chain built while reading *)



Section persisted_chain.
Context `{MapRange}.

End persisted_chain.


(** ** Prefixes without a suffix *)

Lemma Split_nonempty sep s : Split s sep ≠ [].
Proof.
  destruct s as [|a s]; [done|]. cbn [Split].
  destruct (decide (a = sep)); [done|]. by destruct (Split s sep).
Qed.

Lemma Join_Split sep s : Join (Split s sep) (String sep "") = s.
Proof.
  induction s as [|a s IH]; [done|]. cbn [Split].
  pose proof (Split_nonempty sep s) as Hne.
  destruct (decide (a = sep)) as [->|Hna].
  - destruct (Split s sep) as [|w ws] eqn:Hs; [done|].
    rewrite Join_cons2, IH. reflexivity.
  - destruct (Split s sep) as [|w ws] eqn:Hs; [done|].
    destruct ws as [|w' ws].
    + cbn [Join] in IH |- *. by rewrite IH.
    + rewrite Join_cons2 in IH |- *. by rewrite app_String, IH.
Qed.




(** X16: the decoder takes a line of two fields or more that has as
    many fields as the prefix length in force, and no pair after them:
    the whole line becomes a key of the table, with no suffix under
    it. *)
Theorem line_without_pairs_is_accepted
    (data : string) (pre rest : list string) (line : string) (c : Chain) :
  ScanLines data = pre ++ line :: rest →
  readLines (NewChain 0) pre = Ok c →
  (1 < length (Split line SP))%nat →
  Z.of_nat (length (Split line SP)) = prefixLen c →
  FreqTableFromFreqFile data
    = readLines (mkChain (chain c) (prefixLen c) (<[line := ∅]> (freqTable c)))
                rest.
Proof.
  intros Hdata Hpre Hlen Hk. unfold FreqTableFromFreqFile.
  rewrite Hdata, (readLines_reached _ _ c) by done.
  rewrite readLine_data by done. rewrite readDataLine_pairs by lia.
  rewrite <- Hk, Nat2Z.id, drop_all, firstn_all. cbn [readPairs]. bind_steps.
  unfold Prefix_String. change " " with (String SP "").
  by rewrite Join_Split.
Qed.

Lemma line_without_pairs_is_accepted_witness :
  let data := "2" +:+ String LF ("I am" +:+ String LF "") in
  FreqTableFromFreqFile data = readLines (mkChain ∅ 2 (<["I am" := ∅]> ∅)) [].
Proof.
  intros data.
  assert (1 < length (Split "I am" SP))%nat as Hlen by (vm_compute; lia).
  apply (line_without_pairs_is_accepted data ["2"] [] "I am" (NewChain 2)
           eq_refl eq_refl Hlen).
  reflexivity.
Defined.

Section suffixless.
Context `{MapRange}.



End suffixless.



(** ** What the decoder leaves alone *)

Lemma readLine_chain st line st1 :
  readLine st line = Ok st1 → chain st1 = chain st.
Proof.
  unfold readLine. destruct (1 <? length (Split line SP))%nat.
  - unfold readDataLine.
    destruct (Z.of_nat (length (Split line SP)) <? prefixLen st); [done|].
    destruct (prefixLen st <? 0).
    { destruct (prefixLen st =? -1); [|done]. by destruct (Atoi _). }
    destruct (readPairs _ ∅) as [val|]; [|done]. rewrite bind_Ok.
    by intros [= <-].
  - destruct (Split line SP) as [|item [|? ?]]; try by intros [= <-].
    destruct (0 <? String.length item)%nat; [|by intros [= <-]].
    destruct (Atoi item); [|done]. by intros [= <-].
Qed.

Lemma readLines_chain lines : ∀ st st1,
  readLines st lines = Ok st1 → chain st1 = chain st.
Proof.
  induction lines as [|line lines IH]; intros st st1 Hrun.
  - by injection Hrun as <-.
  - cbn [readLines] in Hrun.
    destruct (readLine st line) as [st'|] eqn:Hline; [|done].
    rewrite bind_Ok in Hrun. rewrite (IH _ _ Hrun).
    by eapply readLine_chain.
Qed.

(** X18: [FreqTableFromFreqFile] never fills the chain: whatever the
    file holds, the chain of the result is empty, so [Generate] on it
    returns the empty text for every [n] until [ChainFromFreqTable] has
    been called (the prefix length being 0 or more). *)
Theorem decoded_chain_is_empty
    (src : nat → nat → nat) (data : string) (c : Chain) (n : Z) :
  FreqTableFromFreqFile data = Ok c →
  chain c = ∅ ∧ (0 ≤ prefixLen c → Generate src c n = Ok "").
Proof.
  intros Hdec. apply readLines_chain in Hdec. cbn [chain NewChain] in Hdec.
  split; [done|]. intros Hk.
  unfold Generate, GenerateWords. rewrite startPrefix_ok by done. bind_steps.
  destruct (Z.to_nat n) as [|todo]; [done|].
  cbn [generateLoop]. cbv zeta. by rewrite Hdec, lookup_empty.
Qed.

Lemma decoded_chain_is_empty_witness :
  let data := "1" +:+ String LF ("a b 2" +:+ String LF "") in
  let c := mkChain ∅ 1 {[ "a" := {[ "b" := 2 ]} ]} in
  FreqTableFromFreqFile data = Ok c ∧
  chain c = ∅ ∧ Generate (λ _ _, 0%nat) c 3 = Ok "".
Proof.
  intros data c. split; [reflexivity|].
  destruct (decoded_chain_is_empty (λ _ _, 0%nat) data c 3 eq_refl) as [Hch Hgen].
  split; [exact Hch|]. apply Hgen. simpl. lia.
Defined.
